(** * mpscpp: a closable multi-producer / single-consumer channel

    A shallow embedding of [queue.hpp] (the two-lock linked queue
    [threadsafe_queue<T>]) and of the channel header ([Channel<T>],
    [Sender<T>], [Receiver<T>], [Receiver<T>::iterator], [make_channel]),
    followed by the properties of the channel that are established on it.

    Conventions of the embedding.
    - Nodes live in a heap [gmap loc (node T)]; a [std::unique_ptr<node>]
      and a raw [node*] are both an [option loc], [None] being the null
      pointer.  A [std::shared_ptr<T>] is an [option T].
    - The channel cores live in a store [gmap cref (Channel T)]; a
      [std::shared_ptr<Channel<T>>] is an [option cref].
    - Member functions are computations in a state monad whose results are
      [outcome]s: a normal return, a thrown exception, undefined behaviour
      (a null or dangling pointer is dereferenced), or a thread that is
      put to sleep on the condition variable.
    - Every [std::lock_guard] / [std::unique_lock] scope is executed as one
      atomic step, so the two mutexes carry no state of their own; the
      condition variable [data_cond] is the number of [notify_one] calls
      issued on it. *)

From stdpp Require Import gmap list strings.

Set Default Proof Using "Type".

(** ** Outcomes and the state monad *)

Inductive exn : Type :=
| logic_error (what : string)      (* std::logic_error *)
| bad_optional_access.             (* std::bad_optional_access *)

Inductive outcome (A : Type) : Type :=
| Ret (a : A)            (* the call returns *)
| Throw (e : exn)        (* the call throws *)
| Undefined              (* a null or dangling pointer is dereferenced *)
| Blocked                (* the caller sleeps in [data_cond.wait] *)
| OutOfFuel.             (* a [while(true)] loop used up its fuel *)
Arguments Ret {A} a.
Arguments Throw {A} e.
Arguments Undefined {A}.
Arguments Blocked {A}.
Arguments OutOfFuel {A}.

Definition M (S A : Type) : Type := S → outcome (A * S).

Definition ret {S A : Type} (a : A) : M S A := λ s, Ret (a, s).

Definition bind {S A B : Type} (m : M S A) (k : A → M S B) : M S B :=
  λ s, match m s with
       | Ret (a, s') => k a s'
       | Throw e => Throw e
       | Undefined => Undefined
       | Blocked => Blocked
       | OutOfFuel => OutOfFuel
       end.

Definition gets {S A : Type} (f : S → A) : M S A := λ s, Ret (f s, s).
Definition modify {S : Type} (f : S → S) : M S unit := λ s, Ret (tt, f s).
Definition throw {S A : Type} (e : exn) : M S A := λ _, Throw e.
Definition undefined {S A : Type} : M S A := λ _, Undefined.
Definition block {S A : Type} : M S A := λ _, Blocked.
Definition out_of_fuel {S A : Type} : M S A := λ _, OutOfFuel.

(** Run a computation on a component of the state. *)
Definition zoom {S S' A : Type} (proj : S → S') (upd : S' → S → S)
    (m : M S' A) : M S A :=
  λ s, match m (proj s) with
       | Ret (a, s') => Ret (a, upd s' s)
       | Throw e => Throw e
       | Undefined => Undefined
       | Blocked => Blocked
       | OutOfFuel => OutOfFuel
       end.

Declare Scope cpp_scope.
Delimit Scope cpp_scope with cpp.
Notation "x ← m ; k" := (bind m (λ x, k))
  (at level 20, m at level 100, k at level 200, only parsing) : cpp_scope.
Notation "m ;; k" := (bind m (λ _, k))
  (at level 100, k at level 200, right associativity, only parsing) : cpp_scope.
Local Open Scope cpp_scope.

(** ** queue.hpp: [threadsafe_queue<T>] *)

Definition loc : Type := positive.

Record node (T : Type) : Type := Node {
  data : option T;        (* std::shared_ptr<T> data *)
  next : option loc;      (* std::unique_ptr<node> next *)
}.
Arguments Node {T} data next.
Arguments data {T} _.
Arguments next {T} _.

Record threadsafe_queue (T : Type) : Type := Queue {
  heap : gmap loc (node T);   (* the nodes allocated by this queue *)
  head : option loc;          (* std::unique_ptr<node> head *)
  tail : option loc;          (* node* tail *)
  data_cond : nat;            (* notify_one calls issued on data_cond *)
}.
Arguments Queue {T} heap head tail data_cond.
Arguments heap {T} _.
Arguments head {T} _.
Arguments tail {T} _.
Arguments data_cond {T} _.

Module threadsafe_queue.
Section methods.
Context {T : Type}.

Local Abbreviation Q := (M (threadsafe_queue T)).

Definition set_heap (h : gmap loc (node T)) : Q unit :=
  modify (λ q, Queue h (head q) (tail q) (data_cond q)).
Definition set_head (p : option loc) : Q unit :=
  modify (λ q, Queue (heap q) p (tail q) (data_cond q)).
Definition set_tail (p : option loc) : Q unit :=
  modify (λ q, Queue (heap q) (head q) p (data_cond q)).

(** [new node]: a node with a null [data] and a null [next] at an
    address that is not in use. *)
Definition new_node : Q loc :=
  λ q, let p := fresh (dom (heap q)) in
       Ret (p, Queue (<[p := Node None None]> (heap q))
                     (head q) (tail q) (data_cond q)).

(** [*p] / [p->] for a node pointer. *)
Definition deref (p : option loc) : Q (node T) :=
  λ q, match p with
       | None => Undefined
       | Some l => match heap q !! l with
                   | None => Undefined
                   | Some n => Ret (n, q)
                   end
       end.

(** Assignment to the node behind [p]. *)
Definition assign (p : option loc) (n : node T) : Q unit :=
  _ ← deref p;
  match p with
  | None => undefined
  | Some l => h ← gets heap; set_heap (<[l := n]> h)
  end.

(** [~unique_ptr<node>]: deletes the node, whose destructor destroys its
    own [next] in turn.  Each step removes one node, so the size of the
    heap is enough fuel. *)
Fixpoint delete_chain (fuel : nat) (h : gmap loc (node T)) (p : option loc)
    : gmap loc (node T) :=
  match fuel, p with
  | S fuel', Some l =>
      match h !! l with
      | Some n => delete_chain fuel' (delete l h) (next n)
      | None => h
      end
  | _, _ => h
  end.

Definition destroy (p : option loc) : Q unit :=
  h ← gets heap; set_heap (delete_chain (size h) h p).

Definition notify_one : Q unit :=
  modify (λ q, Queue (heap q) (head q) (tail q) (S (data_cond q))).

(** [threadsafe_queue(): head(new node), tail(head.get())] *)
Definition ctor : threadsafe_queue T :=
  let p : loc := fresh (dom (∅ : gmap loc (node T))) in
  Queue {[p := Node None None]} (Some p) (Some p) 0.

Definition get_tail : Q (option loc) := gets tail.

Definition pop_head : Q (option loc) :=
  old_head ← gets head;          (* old_head = std::move(head) *)
  set_head None;;
  n ← deref old_head;            (* std::move(old_head->next) *)
  assign old_head (Node (data n) None);;
  set_head (next n);;            (* head = ... *)
  ret old_head.

(** The predicate of [data_cond.wait]: [head.get() != get_tail()]. *)
Definition wait_pred : Q bool :=
  h ← gets head;
  t ← get_tail;
  ret (negb (bool_decide (h = t))).

(** [data_cond.wait(head_lock, pred)]: returns once [pred] holds; while
    it does not, the calling thread sleeps. *)
Definition wait_for_data : Q unit :=
  b ← wait_pred;
  if b then ret tt else block.

Definition wait_pop_head : Q (option loc) :=
  wait_for_data;;
  pop_head.

(** [wait_pop_head(T& value)]; the value assigned to [value] is returned
    next to the old head. *)
Definition wait_pop_head_value : Q (T * option loc) :=
  wait_for_data;;
  h ← gets head;
  n ← deref h;
  match data n with
  | None => undefined                       (* *head->data *)
  | Some v => old_head ← pop_head; ret (v, old_head)
  end.

Definition try_pop_head : Q (option loc) :=
  h ← gets head;
  t ← get_tail;
  if bool_decide (h = t) then ret None
  else pop_head.

(** [try_pop_head(T& value)]; [value] is assigned only when a node is
    popped. *)
Definition try_pop_head_value : Q (option T * option loc) :=
  h ← gets head;
  t ← get_tail;
  if bool_decide (h = t) then ret (None, None)
  else
    n ← deref h;
    match data n with
    | None => undefined
    | Some v => old_head ← pop_head; ret (Some v, old_head)
    end.

Definition push (new_value : T) : Q unit :=
  let new_data := Some new_value in
  ptr ← new_node;
  t ← gets tail;
  n ← deref t;
  assign t (Node new_data (next n));;       (* tail->data = new_data *)
  let new_tail := Some ptr in
  n ← deref t;
  assign t (Node (data n) (Some ptr));;     (* tail->next = std::move(ptr) *)
  destroy (next n);;                        (* the value that was overwritten *)
  set_tail new_tail;;
  notify_one.

Definition wait_and_pop : Q (option T) :=
  old_head ← wait_pop_head;
  n ← deref old_head;
  destroy old_head;;
  ret (data n).

(** [wait_and_pop(T& value)], returning the value assigned. *)
Definition wait_and_pop_value : Q T :=
  r ← wait_pop_head_value;
  destroy r.2;;
  ret r.1.

Definition try_pop : Q (option T) :=
  old_head ← try_pop_head;
  r ← match old_head with
      | Some _ => n ← deref old_head; ret (data n)
      | None => ret None
      end;
  destroy old_head;;
  ret r.

(** [try_pop(T& value)]: the flag returned and the value assigned, if
    any. *)
Definition try_pop_value : Q (bool * option T) :=
  r ← try_pop_head_value;
  destroy r.2;;
  ret (match r.2 with None => false | Some _ => true end, r.1).

Definition empty : Q bool :=
  h ← gets head;
  t ← get_tail;
  ret (bool_decide (h = t)).

End methods.
End threadsafe_queue.

(** ** The channel header: [Channel<T>] *)

Record Channel (T : Type) : Type := MkChannel {
  que : threadsafe_queue T;     (* threadsafe_queue<T> que *)
  _closed : bool;               (* bool _closed = false *)
}.
Arguments MkChannel {T} que _closed.
Arguments que {T} _.
Arguments _closed {T} _.

Module Channel.
Section methods.
Context {T : Type}.

Local Abbreviation C := (M (Channel T)).

(** A member function of [que] called from the channel. *)
Definition on_que {A : Type} (m : M (threadsafe_queue T) A) : C A :=
  zoom que (λ q ch, MkChannel q (_closed ch)) m.

(** [*p] for a [std::shared_ptr<T>]. *)
Definition deref_shared (p : option T) : C T :=
  match p with
  | None => undefined
  | Some v => ret v
  end.

(** [Channel() {}] *)
Definition ctor : Channel T := MkChannel threadsafe_queue.ctor false.

(** Both overloads of [send] push the value. *)
Definition send (val : T) : C unit :=
  on_que (threadsafe_queue.push val).

(** [return *que.wait_and_pop();], converted to [std::optional<T>]. *)
Definition recv : C (option T) :=
  p ← on_que threadsafe_queue.wait_and_pop;
  v ← deref_shared p;
  ret (Some v).

(** [return *que.try_pop();], converted to [std::optional<T>]. *)
Definition try_recv : C (option T) :=
  p ← on_que threadsafe_queue.try_pop;
  v ← deref_shared p;
  ret (Some v).

Definition close_channel : C unit :=
  modify (λ ch, MkChannel (que ch) true).

Definition closed : C bool := gets _closed.

End methods.
End Channel.

(** ** The handles: [Sender<T>] and [Receiver<T>] *)

Definition cref : Type := positive.

(** The channel cores that are alive, by address. *)
Abbreviation world T := (gmap cref (Channel T)).

Record Sender : Type := MkSender {
  Sender_channel : option cref;     (* std::shared_ptr<Channel<T>> channel *)
}.

Record Receiver : Type := MkReceiver {
  Receiver_channel : option cref;   (* std::shared_ptr<Channel<T>> channel *)
}.

(** [channel->f(...)]: the member function runs on the core behind the
    shared pointer. *)
Definition arrow {T A : Type} (channel : option cref) (m : M (Channel T) A)
    : M (world T) A :=
  λ w, match channel with
       | None => Undefined
       | Some c =>
           match w !! c with
           | None => Undefined
           | Some ch =>
               match m ch with
               | Ret (a, ch') => Ret (a, <[c := ch']> w)
               | Throw e => Throw e
               | Undefined => Undefined
               | Blocked => Blocked
               | OutOfFuel => OutOfFuel
               end
           end
       end.

Module Sender.
Section methods.
Context {T : Type}.

Local Abbreviation W := (M (world T)).

Definition moved (this : Sender) : W unit :=
  match Sender_channel this with
  | None => throw (logic_error "Sender has been moved.")
  | Some _ => ret tt
  end.

(** Both overloads; the handle returned is [*this]. *)
Definition send (this : Sender) (val : T) : W Sender :=
  moved this;;
  arrow (Sender_channel this) (Channel.send val);;
  ret this.

Definition close (this : Sender) : W unit :=
  moved this;;
  arrow (Sender_channel this) Channel.close_channel.

Definition closed (this : Sender) : W bool :=
  moved this;;
  arrow (Sender_channel this) Channel.closed.

(** The implicit copy constructor: another share of the same core. *)
Definition copy (this : Sender) : Sender := MkSender (Sender_channel this).

(** The implicit move constructor: the new handle and what is left of
    the old one. *)
Definition move (this : Sender) : Sender * Sender :=
  (MkSender (Sender_channel this), MkSender None).

End methods.
End Sender.

Module Receiver.
Section methods.
Context {T : Type}.

Local Abbreviation W := (M (world T)).

Definition moved (this : Receiver) : W unit :=
  match Receiver_channel this with
  | None => throw (logic_error "Receiver has been moved.")
  | Some _ => ret tt
  end.

Definition recv (this : Receiver) : W (option T) :=
  moved this;;
  arrow (Receiver_channel this) Channel.recv.

Definition try_recv (this : Receiver) : W (option T) :=
  moved this;;
  arrow (Receiver_channel this) Channel.try_recv.

Definition closed (this : Receiver) : W bool :=
  moved this;;
  arrow (Receiver_channel this) Channel.closed.

(** [Receiver(Receiver<T>&&) = default] *)
Definition move (this : Receiver) : Receiver * Receiver :=
  (MkReceiver (Receiver_channel this), MkReceiver None).

End methods.
End Receiver.

(** [make_channel<T>()]: one core, one handle of each kind. *)
Definition make_channel {T : Type} : M (world T) (Sender * Receiver) :=
  λ w, let channel := fresh (dom w) in
       let sender := MkSender (Some channel) in
       let receiver := MkReceiver (Some channel) in
       Ret ((Sender.move sender).1, (Receiver.move receiver).1,
            <[channel := Channel.ctor]> w).

(** ** [Receiver<T>::iterator]

    The iterator points at the receiver it was made from.  No member
    function reachable from an iterator changes a [Receiver], so the
    pointer is kept as the handle it points at; [None] is [nullptr]. *)

Record iterator (T : Type) : Type := MkIterator {
  receiver : option Receiver;      (* Receiver<T>* receiver *)
  current : option T;              (* std::optional<T> current *)
}.
Arguments MkIterator {T} receiver current.
Arguments receiver {T} _.
Arguments current {T} _.

Module iterator.
Section methods.
Context {T : Type}.

Local Abbreviation W := (M (world T)).

(** The body of [while(true)] in [next], run at most [fuel] times. *)
Fixpoint next_loop (fuel : nat) (r : Receiver) (this : iterator T)
    : W (iterator T) :=
  match fuel with
  | 0 => out_of_fuel
  | S fuel' =>
      c ← Receiver.closed r;
      if c then ret (MkIterator None None)
      else
        tmp ← Receiver.recv r;
        match tmp with
        | None => next_loop fuel' r this            (* continue *)
        | Some v => ret (MkIterator (receiver this) (Some v))
        end
  end.

Definition next (fuel : nat) (this : iterator T) : W (iterator T) :=
  match receiver this with
  | None => ret this
  | Some r => next_loop fuel r this
  end.

(** [iterator(): receiver(nullptr)] *)
Definition ctor : iterator T := MkIterator None None.

(** [iterator(Receiver<T>& receiver)] *)
Definition ctor_from (fuel : nat) (r : Receiver) : W (iterator T) :=
  c ← Receiver.closed r;
  if c then ret (MkIterator None None)
  else next fuel (MkIterator (Some r) None).

(** [operator*]: [current.value()] *)
Definition op_deref (this : iterator T) : W T :=
  match current this with
  | None => throw bad_optional_access
  | Some v => ret v
  end.

(** [operator++] *)
Definition op_incr (fuel : nat) (this : iterator T) : W (iterator T) :=
  next fuel this.

Definition is_nullptr (p : option Receiver) : bool :=
  match p with None => true | Some _ => false end.

(** [operator==] *)
Definition op_eq (this other : iterator T) : bool :=
  if is_nullptr (receiver this) && is_nullptr (receiver other) then true
  else false.

(** [operator!=] *)
Definition op_ne (this other : iterator T) : bool :=
  negb (op_eq this other).

End methods.
End iterator.

(** [Receiver<T>::begin] and [Receiver<T>::end]. *)
Definition Receiver_begin {T : Type} (fuel : nat) (this : Receiver)
    : M (world T) (iterator T) :=
  iterator.ctor_from fuel this.

Definition Receiver_end {T : Type} : iterator T := iterator.ctor.

(** ** Client programs

    Straight-line uses of the handles, as a single thread would write
    them. *)

Section programs.
Context {T : Type}.

Local Abbreviation W := (M (world T)).

(** [s.send(v1).send(v2)...] *)
Fixpoint send_all (s : Sender) (vs : list T) : W Sender :=
  match vs with
  | [] => ret s
  | v :: vs' => s' ← Sender.send s v; send_all s' vs'
  end.

(** [n] calls of [r.recv()] in a row. *)
Fixpoint recv_n (r : Receiver) (n : nat) : W (list (option T)) :=
  match n with
  | 0 => ret []
  | S n' => o ← Receiver.recv r; os ← recv_n r n'; ret (o :: os)
  end.

(** [for (; it != end; ++it) { v = *it; out.push_back(v); }] run for at
    most [n] rounds; [fuel] bounds the loop inside [next]. *)
Fixpoint range_for (fuel n : nat) (it : iterator T) : W (list T) :=
  match n with
  | 0 => out_of_fuel
  | S n' =>
      if iterator.op_ne it Receiver_end then
        v ← iterator.op_deref it;
        it' ← iterator.op_incr fuel it;
        vs ← range_for fuel n' it';
        ret (v :: vs)
      else ret []
  end.

(** [for (auto v : r) out.push_back(v);] *)
Definition for_each (fuel n : nat) (r : Receiver) : W (list T) :=
  it ← Receiver_begin fuel r;
  range_for fuel n it.

(** The same loop left by [break] once [n] values have been read: the
    iterator is advanced between two reads only. *)
Fixpoint collect (fuel n : nat) (it : iterator T)
    : W (list T * iterator T) :=
  match n with
  | 0 => ret ([], it)
  | S n' =>
      if iterator.op_ne it Receiver_end then
        v ← iterator.op_deref it;
        match n' with
        | 0 => ret ([v], it)
        | S _ =>
            it' ← iterator.op_incr fuel it;
            r ← collect fuel n' it';
            ret (v :: r.1, r.2)
        end
      else ret ([], it)
  end.

(** The consumer reads [k] values through an iterator, then a producer
    closes the channel, then the consumer advances once more ([begin]
    when it had not started yet). *)
Definition iterate_then_close (fuel k : nat) (s : Sender) (r : Receiver)
    : W (list T * iterator T) :=
  match k with
  | 0 =>
      Sender.close s;;
      it ← Receiver_begin fuel r;
      ret ([], it)
  | S _ =>
      it ← Receiver_begin fuel r;
      got ← collect fuel k it;
      Sender.close s;;
      it' ← iterator.op_incr fuel got.2;
      ret (got.1, it')
  end.

(** One thread makes a channel, sends [vs], closes the channel or not,
    and then receives as many values as it has sent. *)
Definition send_then_recv (closing : bool) (vs : list T)
    : W (list (option T)) :=
  sr ← make_channel;
  send_all sr.1 vs;;
  (if closing then Sender.close sr.1 else ret tt);;
  recv_n sr.2 (length vs).

(** One thread makes a channel, sends [vs] and reads as many values back
    through an iterator. *)
Definition send_then_iterate (fuel : nat) (vs : list T) : W (list T) :=
  sr ← make_channel;
  send_all sr.1 vs;;
  it ← Receiver_begin fuel sr.2;
  got ← collect fuel (length vs) it;
  ret got.1.

(** One thread makes a channel, sends [vs], closes the channel and then
    runs the range-based for loop over the receiver. *)
Definition send_close_for_each (fuel n : nat) (vs : list T) : W (list T) :=
  sr ← make_channel;
  send_all sr.1 vs;;
  Sender.close sr.1;;
  for_each fuel n sr.2.

(** The channel is made and filled with [vs]; it is closed when the
    iteration has read [k] of the values. *)
Definition send_iterate_close (fuel k : nat) (vs : list T)
    : W (list T * iterator T) :=
  sr ← make_channel;
  send_all sr.1 vs;;
  iterate_then_close fuel k sr.1 sr.2.

End programs.

(** ** A consumer asleep in [recv] while other threads run

    The consumer thread is inside [data_cond.wait(head_lock, pred)].  It
    is woken by a [notify_one] of another thread, or spuriously; once
    woken it evaluates the predicate again under [head_mutex] and either
    goes on with the rest of [recv] or sleeps again. *)

Inductive consumer (T : Type) : Type :=
| Waiting                      (* asleep in data_cond.wait *)
| Returned (r : option T)      (* recv has returned r *)
| Faulted.                     (* recv ran into undefined behaviour *)
Arguments Waiting {T}.
Arguments Returned {T} r.
Arguments Faulted {T}.

Inductive event (T : Type) : Type :=
| ev_send (v : T)              (* another thread runs send(v) *)
| ev_close                     (* another thread runs close_channel() *)
| ev_spurious.                 (* the sleeping thread wakes up unprompted *)
Arguments ev_send {T} v.
Arguments ev_close {T}.
Arguments ev_spurious {T}.

Section sleeping_consumer.
Context {T : Type}.

(** The woken consumer: [recv] from its wait onwards. *)
Definition wake (ch : Channel T) : Channel T * consumer T :=
  match Channel.recv ch with
  | Ret (r, ch') => (ch', Returned r)
  | Blocked => (ch, Waiting)
  | _ => (ch, Faulted)
  end.

(** Did the step from [ch] to [ch'] call [notify_one]? *)
Definition notified (ch ch' : Channel T) : bool :=
  bool_decide (data_cond (que ch) < data_cond (que ch')).

(** A member function run to its end by another thread. *)
Definition other_thread (m : M (Channel T) unit) (ch : Channel T)
    : Channel T :=
  match m ch with
  | Ret (_, ch') => ch'
  | _ => ch
  end.

Definition deliver (ch ch' : Channel T) (c : consumer T)
    : Channel T * consumer T :=
  match c with
  | Waiting => if notified ch ch' then wake ch' else (ch', Waiting)
  | _ => (ch', c)
  end.

Definition step (s : Channel T * consumer T) (e : event T)
    : Channel T * consumer T :=
  match e with
  | ev_send v => deliver s.1 (other_thread (Channel.send v) s.1) s.2
  | ev_close => deliver s.1 (other_thread Channel.close_channel s.1) s.2
  | ev_spurious =>
      match s.2 with
      | Waiting => wake s.1
      | _ => s
      end
  end.

Definition run (tr : list (event T)) (s : Channel T * consumer T)
    : Channel T * consumer T :=
  foldl step s tr.

Definition is_send (e : event T) : bool :=
  match e with ev_send _ => true | _ => false end.

End sleeping_consumer.

(** ** The shape of a queue *)

Section shape.
Context {T : Type}.

(** [lseg h p vs t]: the [next] links lead from [p] to [t] through nodes
    other than [t] that carry the values [vs], in this order. *)
Fixpoint lseg (h : gmap loc (node T)) (p : loc) (vs : list T) (t : loc)
    : Prop :=
  match vs with
  | [] => p = t
  | v :: vs' =>
      p ≠ t ∧ ∃ p', h !! p = Some (Node (Some v) (Some p')) ∧ lseg h p' vs' t
  end.

(** A well-formed queue that buffers [vs]: [head] and [tail] are not
    null, the buffered values sit in the nodes from [head] up to [tail],
    and [tail] is the dummy node. *)
Definition queue_inv (q : threadsafe_queue T) (vs : list T) : Prop :=
  ∃ h t, head q = Some h ∧ tail q = Some t ∧
         lseg (heap q) h vs t ∧ heap q !! t = Some (Node None None).

(** The states a queue goes through, with the values pushed so far and
    the values handed out by the pops so far. *)
Inductive reachable : threadsafe_queue T → list T → list T → Prop :=
| reach_ctor :
    reachable threadsafe_queue.ctor [] []
| reach_push q pushed popped v q' :
    reachable q pushed popped →
    threadsafe_queue.push v q = Ret (tt, q') →
    reachable q' (pushed ++ [v]) popped
| reach_wait_and_pop q pushed popped r q' :
    reachable q pushed popped →
    threadsafe_queue.wait_and_pop q = Ret (r, q') →
    reachable q' pushed (popped ++ option_list r)
| reach_wait_and_pop_value q pushed popped v q' :
    reachable q pushed popped →
    threadsafe_queue.wait_and_pop_value q = Ret (v, q') →
    reachable q' pushed (popped ++ [v])
| reach_try_pop q pushed popped r q' :
    reachable q pushed popped →
    threadsafe_queue.try_pop q = Ret (r, q') →
    reachable q' pushed (popped ++ option_list r)
| reach_try_pop_value q pushed popped b r q' :
    reachable q pushed popped →
    threadsafe_queue.try_pop_value q = Ret ((b, r), q') →
    reachable q' pushed (popped ++ option_list r)
| reach_empty q pushed popped b q' :
    reachable q pushed popped →
    threadsafe_queue.empty q = Ret (b, q') →
    reachable q' pushed popped.

(** The core at [c] is well formed, buffers [vs] and has the closed flag
    [cl]. *)
Definition chan_inv (w : world T) (c : cref) (vs : list T) (cl : bool)
    : Prop :=
  ∃ ch, w !! c = Some ch ∧ queue_inv (que ch) vs ∧ _closed ch = cl.

End shape.

(** ** Call sequences of one thread, and a list that answers them *)

Inductive call (T : Type) : Type :=
| call_send (v : T)            (* s.send(v) *)
| call_send_copy (v : T)       (* Sender<T>(s).send(v): through a copy of s *)
| call_close                   (* s.close() *)
| call_close_copy              (* Sender<T>(s).close(): through a copy of s *)
| call_closed_sender           (* s.closed() *)
| call_recv                    (* r.recv() *)
| call_try_recv                (* r.try_recv() *)
| call_closed_receiver.        (* r.closed() *)
Arguments call_send {T} v.
Arguments call_send_copy {T} v.
Arguments call_close {T}.
Arguments call_close_copy {T}.
Arguments call_closed_sender {T}.
Arguments call_recv {T}.
Arguments call_try_recv {T}.
Arguments call_closed_receiver {T}.

Inductive reply (T : Type) : Type :=
| reply_done                   (* send and close return nothing of interest *)
| reply_value (o : option T)   (* what recv or try_recv returned *)
| reply_flag (b : bool).       (* what closed returned *)
Arguments reply_done {T}.
Arguments reply_value {T} o.
Arguments reply_flag {T} b.

Section calls.
Context {T : Type}.

(** One call on the handles [s] and [r]. *)
Definition do_call (s : Sender) (r : Receiver) (c : call T)
    : M (world T) (reply T) :=
  match c with
  | call_send v => _ ← Sender.send s v; ret reply_done
  | call_send_copy v => _ ← Sender.send (Sender.copy s) v; ret reply_done
  | call_close => Sender.close s;; ret reply_done
  | call_close_copy => Sender.close (Sender.copy s);; ret reply_done
  | call_closed_sender => b ← Sender.closed s; ret (reply_flag b)
  | call_recv => o ← Receiver.recv r; ret (reply_value o)
  | call_try_recv => o ← Receiver.try_recv r; ret (reply_value o)
  | call_closed_receiver => b ← Receiver.closed r; ret (reply_flag b)
  end.

Fixpoint do_calls (s : Sender) (r : Receiver) (cs : list (call T))
    : M (world T) (list (reply T)) :=
  match cs with
  | [] => ret []
  | c :: cs' => a ← do_call s r c; rest ← do_calls s r cs'; ret (a :: rest)
  end.

(** The same call answered by a list of buffered values and a flag. *)
Definition fifo_call (c : call T) : M (list T * bool) (reply T) :=
  λ st,
    match c with
    | call_send v | call_send_copy v => Ret (reply_done, (st.1 ++ [v], st.2))
    | call_close | call_close_copy => Ret (reply_done, (st.1, true))
    | call_closed_sender | call_closed_receiver => Ret (reply_flag st.2, st)
    | call_recv =>
        match st.1 with
        | [] => Blocked
        | v :: vs => Ret (reply_value (Some v), (vs, st.2))
        end
    | call_try_recv =>
        match st.1 with
        | [] => Undefined
        | v :: vs => Ret (reply_value (Some v), (vs, st.2))
        end
    end.

Fixpoint fifo_calls (cs : list (call T)) : M (list T * bool) (list (reply T)) :=
  match cs with
  | [] => ret []
  | c :: cs' => a ← fifo_call c; rest ← fifo_calls cs'; ret (a :: rest)
  end.

(** The outcome on the channel at [c] is the outcome on the list. *)
Definition answers_alike {A : Type} (c : cref)
    (on_channel : outcome (A * world T))
    (on_list : outcome (A * (list T * bool))) : Prop :=
  match on_list with
  | Ret (a, st) =>
      ∃ w', on_channel = Ret (a, w') ∧ chan_inv w' c st.1 st.2
  | Throw e => on_channel = Throw e
  | Undefined => on_channel = Undefined
  | Blocked => on_channel = Blocked
  | OutOfFuel => on_channel = OutOfFuel
  end.

(** An iterator holds a value exactly when it is not at the end. *)
Definition holds_value_iff_active (it : iterator T) : Prop :=
  match receiver it with
  | None => current it = None
  | Some _ => is_Some (current it)
  end.

End calls.

(** A computation that never puts its caller to sleep and never spins. *)
Definition never_waits {S A : Type} (m : M S A) : Prop :=
  ∀ s, m s ≠ Blocked ∧ m s ≠ OutOfFuel.

(** ** Concrete states

    Queues and channels over [nat] on which the statements below are
    evaluated. *)

(** The state a member function leaves a queue in. *)
Definition queue_after {A : Type} (m : M (threadsafe_queue nat) A)
    (q : threadsafe_queue nat) : threadsafe_queue nat :=
  match m q with
  | Ret (_, q') => q'
  | _ => q
  end.

Definition queue_7_8 : threadsafe_queue nat :=
  queue_after (threadsafe_queue.push 8)
    (queue_after (threadsafe_queue.push 7) threadsafe_queue.ctor).

Definition queue_8 : threadsafe_queue nat :=
  queue_after threadsafe_queue.try_pop queue_7_8.

(** The channel core after [vs] have been sent and the channel has been
    closed. *)
Definition closed_channel_with (vs : list nat) : Channel nat :=
  other_thread Channel.close_channel
    (foldl (λ ch v, other_thread (Channel.send v) ch) Channel.ctor vs).

Definition world_with (ch : Channel nat) : world nat := {[ 1%positive := ch ]}.

(** The store a computation leaves behind. *)
Definition world_after {A : Type} (m : M (world nat) A) (w : world nat)
    : world nat :=
  match m w with
  | Ret (_, w') => w'
  | _ => w
  end.

(** A store with one open channel that buffers [7] and [8]. *)
Definition world_7_8 : world nat :=
  world_after (s ← Sender.send (MkSender (Some 1%positive)) 7;
               Sender.send s 8)
              (world_with Channel.ctor).

(** A second channel is made next to the closed one and used. *)
Definition second_channel : M (world nat) (list (reply nat)) :=
  sr ← make_channel; do_calls sr.1 sr.2 [call_send 1; call_recv].

(** ** Proof automation *)

Ltac unfold_queue :=
  unfold threadsafe_queue.push, threadsafe_queue.wait_and_pop,
    threadsafe_queue.wait_and_pop_value, threadsafe_queue.try_pop,
    threadsafe_queue.try_pop_value, threadsafe_queue.empty,
    threadsafe_queue.wait_pop_head, threadsafe_queue.wait_pop_head_value,
    threadsafe_queue.try_pop_head, threadsafe_queue.try_pop_head_value,
    threadsafe_queue.wait_for_data, threadsafe_queue.wait_pred,
    threadsafe_queue.pop_head, threadsafe_queue.get_tail,
    threadsafe_queue.new_node, threadsafe_queue.assign,
    threadsafe_queue.deref, threadsafe_queue.destroy,
    threadsafe_queue.set_heap, threadsafe_queue.set_head,
    threadsafe_queue.set_tail, threadsafe_queue.notify_one,
    bind, gets, modify, ret, block, undefined;
  simpl.

Ltac unfold_channel :=
  unfold Channel.send, Channel.recv, Channel.try_recv, Channel.close_channel,
    Channel.closed, Channel.on_que, Channel.deref_shared, zoom,
    bind, gets, modify, ret, block, undefined;
  simpl.

Ltac unfold_handle :=
  unfold Sender.send, Sender.close, Sender.closed, Sender.moved,
    Receiver.recv, Receiver.try_recv, Receiver.closed, Receiver.moved,
    arrow, bind, ret, throw;
  simpl.

Ltac solve_lseg :=
  simpl;
  repeat (split; [discriminate|]; eexists; split; [vm_compute; reflexivity|]);
  reflexivity.

Ltac solve_queue_inv :=
  eexists _, _; split; [vm_compute; reflexivity|];
  split; [vm_compute; reflexivity|];
  split; [solve_lseg | vm_compute; reflexivity].

Ltac solve_reachable_queue_8 :=
  apply (reach_try_pop queue_7_8 [7; 8] [] (Some 7) queue_8);
    [|vm_compute; reflexivity];
  apply (reach_push
           (queue_after (threadsafe_queue.push 7) threadsafe_queue.ctor)
           [7] [] 8 queue_7_8); [|vm_compute; reflexivity];
  apply (reach_push threadsafe_queue.ctor [] [] 7
           (queue_after (threadsafe_queue.push 7) threadsafe_queue.ctor));
    [|vm_compute; reflexivity];
  apply reach_ctor.

Ltac solve_chan_inv :=
  eexists; split; [vm_compute; reflexivity|]; split; [solve_queue_inv|reflexivity].

(** ** Facts about the queue *)

Section queue_facts.
Context {T : Type}.
Implicit Types (h : gmap loc (node T)) (q : threadsafe_queue T).
Implicit Types (vs : list T) (p t l : loc).

Lemma lseg_det h p vs1 vs2 t : lseg h p vs1 t → lseg h p vs2 t → vs1 = vs2.
Proof.
  revert p vs2. induction vs1 as [|v vs1 IH]; intros p [|v2 vs2]; simpl; try done.
  - intros -> [? _]; done.
  - intros [? _] ->; done.
  - intros (_ & p1 & H1 & S1) (_ & p2 & H2 & S2).
    rewrite H1 in H2. injection H2 as -> ->. f_equal. eauto.
Qed.

Lemma lseg_nil_iff h p vs t : lseg h p vs t → (p = t ↔ vs = []).
Proof. destruct vs; simpl; [done|]. intros [? _]. split; done. Qed.

Lemma lseg_push h p vs t v l :
  lseg h p vs t → h !! l = None → is_Some (h !! t) →
  lseg (<[t := Node (Some v) (Some l)]> (<[l := Node None None]> h))
       p (vs ++ [v]) l.
Proof.
  intros Hseg Hl [nt Ht].
  assert (t ≠ l) by congruence.
  revert p Hseg. induction vs as [|x vs IH]; simpl; intros p Hseg.
  - subst p. split; [done|]. exists l. split; [|done].
    by rewrite lookup_insert_eq.
  - destruct Hseg as (Hne & p' & Hp & Hseg).
    assert (p ≠ l) by congruence.
    split; [done|]. exists p'. split; [|by apply IH].
    by rewrite !lookup_insert_ne.
Qed.

Lemma lseg_delete h x p vs t :
  lseg h p vs t → (∀ ws, lseg h x ws t → length vs < length ws) →
  lseg (delete x h) p vs t.
Proof.
  revert p. induction vs as [|v vs IH]; simpl; intros p; [done|].
  intros (Hne & p' & Hp & Hseg) Hlen.
  assert (p ≠ x).
  { intros ->. specialize (Hlen (v :: vs)). simpl in Hlen.
    assert (S (length vs) < S (length vs)); [|lia].
    apply Hlen. eauto. }
  split; [done|]. exists p'. split.
  - by rewrite lookup_delete_ne.
  - apply IH; [done|]. intros ws Hws. specialize (Hlen ws Hws). lia.
Qed.

(** Dropping the first node of a segment leaves the rest in place. *)
Lemma lseg_pop h p v vs t :
  lseg h p (v :: vs) t →
  ∃ p', h !! p = Some (Node (Some v) (Some p')) ∧ p ≠ t ∧
        lseg (delete p h) p' vs t.
Proof.
  intros Hall. pose proof Hall as (Hne & p' & Hp & Hseg).
  exists p'. split; [done|]. split; [done|].
  apply lseg_delete; [done|].
  intros ws Hws. rewrite (lseg_det _ _ _ _ _ Hws Hall). simpl. lia.
Qed.

Lemma delete_chain_null fuel h :
  threadsafe_queue.delete_chain fuel h None = h.
Proof. by destruct fuel. Qed.

(** Destroying a node whose [next] has been moved out frees that node
    only. *)
Lemma delete_chain_single h l d :
  h !! l = Some (Node d None) →
  threadsafe_queue.delete_chain (size h) h (Some l) = delete l h.
Proof.
  intros Hl. destruct (size h) as [|n] eqn:Hsz.
  - apply map_size_empty_inv in Hsz. subst h. by rewrite lookup_empty in Hl.
  - simpl. rewrite Hl. simpl. apply delete_chain_null.
Qed.

Lemma ctor_inv : queue_inv (threadsafe_queue.ctor (T:=T)) [].
Proof.
  eexists _, _. split; [done|]. split; [done|]. split; [done|].
  simpl. by rewrite lookup_singleton_eq.
Qed.

Lemma queue_inv_det q vs1 vs2 : queue_inv q vs1 → queue_inv q vs2 → vs1 = vs2.
Proof.
  intros (h1 & t1 & Hh1 & Ht1 & S1 & _) (h2 & t2 & Hh2 & Ht2 & S2 & _).
  rewrite Hh1 in Hh2. rewrite Ht1 in Ht2. simplify_eq. eauto using lseg_det.
Qed.

Lemma push_spec q vs v :
  queue_inv q vs →
  ∃ q', threadsafe_queue.push v q = Ret (tt, q') ∧
        queue_inv q' (vs ++ [v]) ∧ data_cond q' = S (data_cond q).
Proof.
  intros (h & t & Hh & Ht & Hseg & Hd).
  destruct q as [hp hd tl dc]; simpl in *; subst.
  set (l := fresh (dom hp)).
  assert (hp !! l = None) as Hl by (apply not_elem_of_dom, is_fresh).
  assert (t ≠ l) by congruence.
  eexists. split; [|split].
  - unfold_queue. fold l.
    rewrite (lookup_insert_ne _ l t) by done. rewrite Hd. simpl.
    rewrite (lookup_insert_ne _ l t) by done. rewrite Hd. simpl.
    rewrite lookup_insert_eq. simpl. rewrite lookup_insert_eq. simpl.
    rewrite delete_chain_null, insert_insert_eq. reflexivity.
  - exists h, l. simpl. split; [done|]. split; [done|]. split.
    + apply lseg_push; eauto.
    + rewrite lookup_insert_ne by done. by rewrite lookup_insert_eq.
  - done.
Qed.

(** What [pop_head] followed by the destruction of the old head does to
    a queue that is not empty. *)
Lemma pop_shape h p t v vs dc :
  lseg h p (v :: vs) t → h !! t = Some (Node None None) →
  ∃ p', h !! p = Some (Node (Some v) (Some p')) ∧ Some p ≠ Some t ∧
        queue_inv (Queue (delete p h) (Some p') (Some t) dc) vs.
Proof.
  intros Hseg Hd. destruct (lseg_pop _ _ _ _ _ Hseg) as (p' & Hp & Hne & Hrest).
  exists p'. split; [done|]. split; [congruence|].
  exists p', t. simpl. split; [done|]. split; [done|]. split; [done|].
  by rewrite lookup_delete_ne.
Qed.

Lemma wait_and_pop_spec q v vs :
  queue_inv q (v :: vs) →
  ∃ q', threadsafe_queue.wait_and_pop q = Ret (Some v, q') ∧
        queue_inv q' vs ∧ data_cond q' = data_cond q.
Proof.
  intros (h & t & Hh & Ht & Hseg & Hd).
  destruct q as [hp hd tl dc]; simpl in *; subst.
  destruct (pop_shape _ _ _ _ _ dc Hseg Hd) as (p' & Hp & Hne & Hinv).
  eexists. split; [|split; [exact Hinv|done]].
  unfold_queue. rewrite bool_decide_eq_false_2 by done. simpl.
  rewrite Hp. simpl. rewrite Hp. simpl. rewrite lookup_insert_eq. simpl.
  erewrite delete_chain_single by apply lookup_insert_eq.
  by rewrite delete_insert_eq.
Qed.

Lemma wait_and_pop_value_spec q v vs :
  queue_inv q (v :: vs) →
  ∃ q', threadsafe_queue.wait_and_pop_value q = Ret (v, q') ∧
        queue_inv q' vs ∧ data_cond q' = data_cond q.
Proof.
  intros (h & t & Hh & Ht & Hseg & Hd).
  destruct q as [hp hd tl dc]; simpl in *; subst.
  destruct (pop_shape _ _ _ _ _ dc Hseg Hd) as (p' & Hp & Hne & Hinv).
  eexists. split; [|split; [exact Hinv|done]].
  unfold_queue. rewrite bool_decide_eq_false_2 by done. simpl.
  rewrite Hp. simpl. rewrite Hp. simpl. rewrite Hp. simpl.
  erewrite delete_chain_single by apply lookup_insert_eq.
  by rewrite delete_insert_eq.
Qed.

Lemma try_pop_spec q v vs :
  queue_inv q (v :: vs) →
  ∃ q', threadsafe_queue.try_pop q = Ret (Some v, q') ∧
        queue_inv q' vs ∧ data_cond q' = data_cond q.
Proof.
  intros (h & t & Hh & Ht & Hseg & Hd).
  destruct q as [hp hd tl dc]; simpl in *; subst.
  destruct (pop_shape _ _ _ _ _ dc Hseg Hd) as (p' & Hp & Hne & Hinv).
  eexists. split; [|split; [exact Hinv|done]].
  unfold_queue. rewrite bool_decide_eq_false_2 by done. simpl.
  rewrite Hp. simpl. rewrite Hp. simpl. rewrite lookup_insert_eq. simpl.
  erewrite delete_chain_single by apply lookup_insert_eq.
  by rewrite delete_insert_eq.
Qed.

Lemma try_pop_value_spec q v vs :
  queue_inv q (v :: vs) →
  ∃ q', threadsafe_queue.try_pop_value q = Ret ((true, Some v), q') ∧
        queue_inv q' vs ∧ data_cond q' = data_cond q.
Proof.
  intros (h & t & Hh & Ht & Hseg & Hd).
  destruct q as [hp hd tl dc]; simpl in *; subst.
  destruct (pop_shape _ _ _ _ _ dc Hseg Hd) as (p' & Hp & Hne & Hinv).
  eexists. split; [|split; [exact Hinv|done]].
  unfold_queue. rewrite bool_decide_eq_false_2 by done. simpl.
  rewrite Hp. simpl. rewrite Hp. simpl. rewrite Hp. simpl.
  erewrite delete_chain_single by apply lookup_insert_eq.
  by rewrite delete_insert_eq.
Qed.

(** On an empty queue the blocking pops put the caller to sleep and the
    non-blocking pops hand back a null pointer. *)
Lemma pops_empty q :
  queue_inv q [] →
  threadsafe_queue.wait_and_pop q = Blocked ∧
  threadsafe_queue.wait_and_pop_value q = Blocked ∧
  threadsafe_queue.try_pop q = Ret (None, q) ∧
  threadsafe_queue.try_pop_value q = Ret ((false, None), q).
Proof.
  intros (h & t & Hh & Ht & Hseg & Hd).
  destruct q as [hp hd tl dc]; simpl in *; subst.
  unfold_queue. rewrite bool_decide_eq_true_2 by done. simpl.
  by rewrite delete_chain_null.
Qed.

Lemma empty_spec q vs :
  queue_inv q vs →
  threadsafe_queue.empty q =
    Ret (match vs with [] => true | _ => false end, q).
Proof.
  intros (h & t & Hh & Ht & Hseg & Hd).
  destruct q as [hp hd tl dc]; simpl in *; subst.
  unfold_queue. destruct vs; simpl in Hseg.
  - subst. by rewrite bool_decide_eq_true_2.
  - destruct Hseg as [? _]. rewrite bool_decide_eq_false_2; [done|congruence].
Qed.

Lemma wait_pred_spec q vs :
  queue_inv q vs →
  threadsafe_queue.wait_pred q =
    Ret (match vs with [] => false | _ => true end, q).
Proof.
  intros (h & t & Hh & Ht & Hseg & Hd).
  destruct q as [hp hd tl dc]; simpl in *; subst.
  unfold_queue. destruct vs; simpl in Hseg.
  - subst. by rewrite bool_decide_eq_true_2.
  - destruct Hseg as [? _]. rewrite bool_decide_eq_false_2; [done|congruence].
Qed.

End queue_facts.

(** ** Facts about the channel core *)

Section channel_facts.
Context {T : Type}.
Implicit Types (ch : Channel T) (vs : list T).

Lemma Channel_send_spec ch vs v :
  queue_inv (que ch) vs →
  ∃ ch', Channel.send v ch = Ret (tt, ch') ∧
         queue_inv (que ch') (vs ++ [v]) ∧ _closed ch' = _closed ch ∧
         data_cond (que ch') = S (data_cond (que ch)).
Proof.
  intros Hinv. destruct (push_spec _ _ v Hinv) as (q' & Hpush & Hinv' & Hdc).
  exists (MkChannel q' (_closed ch)). unfold_channel. by rewrite Hpush.
Qed.

Lemma Channel_recv_spec ch v vs :
  queue_inv (que ch) (v :: vs) →
  ∃ ch', Channel.recv ch = Ret (Some v, ch') ∧
         queue_inv (que ch') vs ∧ _closed ch' = _closed ch.
Proof.
  intros Hinv. destruct (wait_and_pop_spec _ _ _ Hinv) as (q' & Hpop & Hinv' & _).
  exists (MkChannel q' (_closed ch)). unfold_channel. by rewrite Hpop.
Qed.

Lemma Channel_recv_empty ch :
  queue_inv (que ch) [] → Channel.recv ch = Blocked.
Proof.
  intros Hinv. destruct (pops_empty _ Hinv) as (Hpop & _).
  unfold_channel. by rewrite Hpop.
Qed.

Lemma Channel_try_recv_spec ch v vs :
  queue_inv (que ch) (v :: vs) →
  ∃ ch', Channel.try_recv ch = Ret (Some v, ch') ∧
         queue_inv (que ch') vs ∧ _closed ch' = _closed ch.
Proof.
  intros Hinv. destruct (try_pop_spec _ _ _ Hinv) as (q' & Hpop & Hinv' & _).
  exists (MkChannel q' (_closed ch)). unfold_channel. by rewrite Hpop.
Qed.

(** [try_pop] hands back a null pointer, which [try_recv] dereferences. *)
Lemma Channel_try_recv_empty ch :
  queue_inv (que ch) [] → Channel.try_recv ch = Undefined.
Proof.
  intros Hinv. destruct (pops_empty _ Hinv) as (_ & _ & Hpop & _).
  unfold_channel. by rewrite Hpop.
Qed.

Lemma Channel_recv_engaged ch ch' : Channel.recv ch ≠ Ret (None, ch').
Proof.
  unfold_channel.
  destruct (threadsafe_queue.wait_and_pop (que ch)) as [[[v|] q']| | | |];
    simpl; congruence.
Qed.

Lemma Channel_try_recv_engaged ch ch' : Channel.try_recv ch ≠ Ret (None, ch').
Proof.
  unfold_channel.
  destruct (threadsafe_queue.try_pop (que ch)) as [[[v|] q']| | | |];
    simpl; congruence.
Qed.

End channel_facts.

(** ** Facts about the handles *)

Section handle_facts.
Context {T : Type}.
Implicit Types (w : world T) (c : cref) (vs : list T) (cl : bool).

Lemma chan_inv_insert w c ch vs :
  queue_inv (que ch) vs → chan_inv (<[c := ch]> w) c vs (_closed ch).
Proof. intros Hinv. exists ch. by rewrite lookup_insert_eq. Qed.

Lemma make_channel_spec w :
  ∃ c w', make_channel w = Ret ((MkSender (Some c), MkReceiver (Some c)), w') ∧
          chan_inv w' c [] false.
Proof.
  eexists _, _. split; [reflexivity|].
  apply (chan_inv_insert _ _ Channel.ctor), ctor_inv.
Qed.

Lemma Sender_send_spec w c vs cl v :
  chan_inv w c vs cl →
  ∃ w', Sender.send (MkSender (Some c)) v w = Ret (MkSender (Some c), w') ∧
        chan_inv w' c (vs ++ [v]) cl.
Proof.
  intros (ch & Hc & Hinv & Hcl).
  destruct (Channel_send_spec _ _ v Hinv) as (ch' & Hsend & Hinv' & Hcl' & _).
  exists (<[c := ch']> w). unfold_handle. rewrite Hc, Hsend. split; [done|].
  rewrite <- Hcl, <- Hcl'. by apply chan_inv_insert.
Qed.

Lemma Sender_close_spec w c vs cl :
  chan_inv w c vs cl →
  ∃ w', Sender.close (MkSender (Some c)) w = Ret (tt, w') ∧
        chan_inv w' c vs true.
Proof.
  intros (ch & Hc & Hinv & Hcl).
  exists (<[c := MkChannel (que ch) true]> w). unfold_handle. rewrite Hc.
  split; [done|]. by apply (chan_inv_insert _ _ (MkChannel (que ch) true)).
Qed.

Lemma Receiver_closed_spec w c vs cl :
  chan_inv w c vs cl →
  Receiver.closed (MkReceiver (Some c)) w = Ret (cl, w).
Proof.
  intros (ch & Hc & Hinv & Hcl). unfold_handle. rewrite Hc. simpl.
  by rewrite insert_id, Hcl.
Qed.

Lemma Receiver_recv_spec w c v vs cl :
  chan_inv w c (v :: vs) cl →
  ∃ w', Receiver.recv (MkReceiver (Some c)) w = Ret (Some v, w') ∧
        chan_inv w' c vs cl.
Proof.
  intros (ch & Hc & Hinv & Hcl).
  destruct (Channel_recv_spec _ _ _ Hinv) as (ch' & Hrecv & Hinv' & Hcl').
  exists (<[c := ch']> w). unfold_handle. rewrite Hc, Hrecv. split; [done|].
  rewrite <- Hcl, <- Hcl'. by apply chan_inv_insert.
Qed.

Lemma Receiver_recv_empty w c cl :
  chan_inv w c [] cl → Receiver.recv (MkReceiver (Some c)) w = Blocked.
Proof.
  intros (ch & Hc & Hinv & Hcl). unfold_handle.
  by rewrite Hc, (Channel_recv_empty _ Hinv).
Qed.

Lemma Receiver_try_recv_spec w c v vs cl :
  chan_inv w c (v :: vs) cl →
  ∃ w', Receiver.try_recv (MkReceiver (Some c)) w = Ret (Some v, w') ∧
        chan_inv w' c vs cl.
Proof.
  intros (ch & Hc & Hinv & Hcl).
  destruct (Channel_try_recv_spec _ _ _ Hinv) as (ch' & Hrecv & Hinv' & Hcl').
  exists (<[c := ch']> w). unfold_handle. rewrite Hc, Hrecv. split; [done|].
  rewrite <- Hcl, <- Hcl'. by apply chan_inv_insert.
Qed.

Lemma Receiver_try_recv_empty w c cl :
  chan_inv w c [] cl → Receiver.try_recv (MkReceiver (Some c)) w = Undefined.
Proof.
  intros (ch & Hc & Hinv & Hcl). unfold_handle.
  by rewrite Hc, (Channel_try_recv_empty _ Hinv).
Qed.

Lemma Receiver_recv_engaged (r : Receiver) w w' :
  Receiver.recv r w ≠ Ret (None, w').
Proof.
  unfold_handle. destruct (Receiver_channel r) as [c|]; simpl; [|done].
  destruct (w !! c) as [ch|]; [|done].
  pose proof (Channel_recv_engaged ch) as Hne.
  destruct (Channel.recv ch) as [[[v|] ch']| | | |]; try done.
  by destruct (Hne ch').
Qed.

Lemma send_all_spec w c vs cl ws :
  chan_inv w c vs cl →
  ∃ w', send_all (MkSender (Some c)) ws w = Ret (MkSender (Some c), w') ∧
        chan_inv w' c (vs ++ ws) cl.
Proof.
  revert w vs. induction ws as [|x ws IH]; intros w vs Hinv; simpl.
  - exists w. by rewrite app_nil_r.
  - destruct (Sender_send_spec _ _ _ _ x Hinv) as (w1 & Hsend & Hinv1).
    destruct (IH _ _ Hinv1) as (w2 & Hall & Hinv2).
    exists w2. unfold bind. rewrite Hsend, Hall. split; [done|].
    by rewrite <- app_assoc in Hinv2.
Qed.

Lemma recv_n_spec w c vs rest cl :
  chan_inv w c (vs ++ rest) cl →
  ∃ w', recv_n (MkReceiver (Some c)) (length vs) w = Ret (Some <$> vs, w') ∧
        chan_inv w' c rest cl.
Proof.
  revert w. induction vs as [|x vs IH]; intros w Hinv; simpl.
  - by exists w.
  - destruct (Receiver_recv_spec _ _ _ _ _ Hinv) as (w1 & Hrecv & Hinv1).
    destruct (IH _ Hinv1) as (w2 & Hall & Hinv2).
    exists w2. unfold bind. rewrite Hrecv. fold (@bind (world T)).
    unfold bind. rewrite Hall. done.
Qed.

End handle_facts.

(** ** Facts about the iterator *)

Section iterator_facts.
Context {T : Type}.
Implicit Types (w : world T) (c : cref) (vs : list T) (cl : bool).

(** [recv] never hands back an empty optional, so the body of the loop in
    [next] runs once: any fuel above zero gives the same result. *)
Lemma next_loop_one_round fuel (r : Receiver) (it : iterator T) w :
  iterator.next_loop (S fuel) r it w = iterator.next_loop 1 r it w.
Proof.
  simpl. unfold bind.
  destruct (Receiver.closed r w) as [[[|] w1]| | | |]; try done.
  pose proof (Receiver_recv_engaged r w1) as Hne.
  destruct (Receiver.recv r w1) as [[[v|] w2]| | | |]; try done.
  by destruct (Hne w2).
Qed.

Lemma next_closed w c vs fuel (cur : option T) :
  chan_inv w c vs true →
  iterator.next (S fuel) (MkIterator (Some (MkReceiver (Some c))) cur) w =
    Ret (Receiver_end, w).
Proof.
  intros Hinv. unfold iterator.next. simpl. unfold bind.
  by rewrite (Receiver_closed_spec _ _ _ _ Hinv).
Qed.

Lemma next_open w c v vs fuel (cur : option T) :
  chan_inv w c (v :: vs) false →
  ∃ w', iterator.next (S fuel) (MkIterator (Some (MkReceiver (Some c))) cur) w =
          Ret (MkIterator (Some (MkReceiver (Some c))) (Some v), w') ∧
        chan_inv w' c vs false.
Proof.
  intros Hinv. destruct (Receiver_recv_spec _ _ _ _ _ Hinv) as (w' & Hrecv & Hinv').
  exists w'. split; [|done]. unfold iterator.next. simpl. unfold bind.
  by rewrite (Receiver_closed_spec _ _ _ _ Hinv), Hrecv.
Qed.


Lemma begin_closed w c vs fuel :
  chan_inv w c vs true →
  Receiver_begin fuel (MkReceiver (Some c)) w = Ret (Receiver_end, w).
Proof.
  intros Hinv. unfold Receiver_begin, iterator.ctor_from, bind.
  by rewrite (Receiver_closed_spec _ _ _ _ Hinv).
Qed.

Lemma begin_open w c v vs fuel :
  chan_inv w c (v :: vs) false →
  ∃ w', Receiver_begin (S fuel) (MkReceiver (Some c)) w =
          Ret (MkIterator (Some (MkReceiver (Some c))) (Some v), w') ∧
        chan_inv w' c vs false.
Proof.
  intros Hinv. destruct (next_open _ _ _ _ fuel None Hinv) as (w' & Hnext & Hinv').
  exists w'. split; [|done]. unfold Receiver_begin, iterator.ctor_from, bind.
  by rewrite (Receiver_closed_spec _ _ _ _ Hinv).
Qed.

(** Reading on through an open channel: the values come out in the order
    in which they are buffered. *)
Lemma collect_open w c v vs rest fuel :
  chan_inv w c (vs ++ rest) false →
  ∃ w' x, collect (S fuel) (S (length vs))
            (MkIterator (Some (MkReceiver (Some c))) (Some v)) w =
            Ret ((v :: vs, MkIterator (Some (MkReceiver (Some c))) (Some x)), w') ∧
          chan_inv w' c rest false.
Proof.
  revert w v. induction vs as [|a vs IH]; intros w v Hinv.
  - exists w, v. done.
  - destruct (next_open _ _ _ _ fuel (Some v) Hinv) as (w1 & Hnext & Hinv1).
    destruct (IH _ a Hinv1) as (w2 & x & Hcol & Hinv2).
    exists w2, x. split; [|done].
    change (collect (S fuel) (S (length (a :: vs))) ?it)
      with (it' ← iterator.op_incr (S fuel) it;
            r ← collect (S fuel) (S (length vs)) it';
            ret (v :: r.1, r.2)).
    unfold iterator.op_incr, bind at 1. rewrite Hnext.
    unfold bind. by rewrite Hcol.
Qed.

Lemma range_for_end w fuel n :
  range_for fuel (S n) (Receiver_end (T:=T)) w = Ret ([], w).
Proof. done. Qed.

End iterator_facts.

(** What [iterate_then_close] computes on a channel that buffers [vs]. *)
Lemma iterate_then_close_spec {T : Type} (w : world T) c (vs : list T) k fuel :
  chan_inv w c vs false → k ≤ length vs →
  ∃ w', iterate_then_close (S fuel) k (MkSender (Some c)) (MkReceiver (Some c)) w =
          Ret ((take k vs, Receiver_end), w') ∧
        chan_inv w' c (drop k vs) true.
Proof.
  intros Hinv Hk. destruct k as [|k].
  - destruct (Sender_close_spec _ _ _ _ Hinv) as (w1 & Hclose & Hinv1).
    exists w1. split; [|done]. unfold iterate_then_close, bind.
    by rewrite Hclose, (begin_closed _ _ _ _ Hinv1).
  - destruct vs as [|v vs]; simpl in Hk; [lia|].
    destruct (begin_open _ _ _ _ fuel Hinv) as (w1 & Hbegin & Hinv1).
    rewrite <- (take_drop k vs) in Hinv1.
    destruct (collect_open _ _ v _ _ fuel Hinv1) as (w2 & x & Hcol & Hinv2).
    rewrite length_take_le in Hcol by lia.
    destruct (Sender_close_spec _ _ _ _ Hinv2) as (w3 & Hclose & Hinv3).
    exists w3. split; [|done]. unfold iterate_then_close, bind.
    rewrite Hbegin, Hcol. cbn [fst snd]. rewrite Hclose.
    unfold iterator.op_incr. by rewrite (next_closed _ _ _ _ _ Hinv3).
Qed.

(** ** The sleeping consumer *)

Section sleeping_facts.
Context {T : Type}.
Implicit Types (ch : Channel T) (tr : list (event T)).

Lemma run_cons e tr (s : Channel T * consumer T) :
  run (e :: tr) s = run tr (step s e).
Proof. done. Qed.

Lemma wake_empty ch : queue_inv (que ch) [] → wake ch = (ch, Waiting).
Proof. intros Hinv. unfold wake. by rewrite (Channel_recv_empty _ Hinv). Qed.

Lemma step_close_empty ch :
  queue_inv (que ch) [] →
  step (ch, Waiting) ev_close = (MkChannel (que ch) true, Waiting).
Proof.
  intros _. unfold step, deliver, other_thread, notified. simpl.
  rewrite bool_decide_eq_false_2; [done|lia].
Qed.

Lemma run_without_send ch tr :
  queue_inv (que ch) [] → forallb (λ e, negb (is_send e)) tr = true →
  ∃ cl, run tr (ch, Waiting) = (MkChannel (que ch) cl, Waiting) ∧
        (_closed ch = true → cl = true).
Proof.
  revert ch. induction tr as [|e tr IH]; intros ch Hinv Hns.
  - exists (_closed ch). by destruct ch.
  - simpl in Hns. apply andb_true_iff in Hns as [He Hns].
    rewrite run_cons.
    destruct e as [v| |]; [done| |].
    + rewrite (step_close_empty _ Hinv).
      destruct (IH (MkChannel (que ch) true) Hinv Hns) as (cl & Hrun & Hcl).
      exists cl. split; [done|]. intros _. by apply Hcl.
    + unfold step. simpl. rewrite (wake_empty _ Hinv). by apply IH.
Qed.


End sleeping_facts.

(** ** Facts about the reachable states of a queue *)

Section reachable_facts.
Context {T : Type}.
Implicit Types (q : threadsafe_queue T) (vs pushed popped : list T).

Lemma reachable_inv q pushed popped :
  reachable q pushed popped → ∃ vs, queue_inv q vs ∧ pushed = popped ++ vs.
Proof.
  induction 1 as [|q pushed popped v q' _ (vs & Hinv & ->) Hop
                  |q pushed popped r q' _ (vs & Hinv & ->) Hop
                  |q pushed popped v q' _ (vs & Hinv & ->) Hop
                  |q pushed popped r q' _ (vs & Hinv & ->) Hop
                  |q pushed popped b r q' _ (vs & Hinv & ->) Hop
                  |q pushed popped b q' _ (vs & Hinv & ->) Hop].
  - exists []. split; [apply ctor_inv|done].
  - destruct (push_spec _ _ v Hinv) as (q1 & Hpush & Hinv1 & _).
    rewrite Hpush in Hop. simplify_eq. exists (vs ++ [v]).
    split; [done|]. by rewrite app_assoc.
  - destruct vs as [|x vs].
    + destruct (pops_empty _ Hinv) as (Hb & _). congruence.
    + destruct (wait_and_pop_spec _ _ _ Hinv) as (q1 & Hpop & Hinv1 & _).
      rewrite Hpop in Hop. simplify_eq. exists vs. split; [done|].
      by rewrite <- app_assoc.
  - destruct vs as [|x vs].
    + destruct (pops_empty _ Hinv) as (_ & Hb & _). congruence.
    + destruct (wait_and_pop_value_spec _ _ _ Hinv) as (q1 & Hpop & Hinv1 & _).
      rewrite Hpop in Hop. simplify_eq. exists vs. split; [done|].
      by rewrite <- app_assoc.
  - destruct vs as [|x vs].
    + destruct (pops_empty _ Hinv) as (_ & _ & Hb & _).
      rewrite Hb in Hop. simplify_eq. exists []. split; [done|].
      simpl. by rewrite !app_nil_r.
    + destruct (try_pop_spec _ _ _ Hinv) as (q1 & Hpop & Hinv1 & _).
      rewrite Hpop in Hop. simplify_eq. exists vs. split; [done|].
      by rewrite <- app_assoc.
  - destruct vs as [|x vs].
    + destruct (pops_empty _ Hinv) as (_ & _ & _ & Hb).
      rewrite Hb in Hop. simplify_eq. exists []. split; [done|].
      simpl. by rewrite !app_nil_r.
    + destruct (try_pop_value_spec _ _ _ Hinv) as (q1 & Hpop & Hinv1 & _).
      rewrite Hpop in Hop. simplify_eq. exists vs. split; [done|].
      by rewrite <- app_assoc.
  - rewrite (empty_spec _ _ Hinv) in Hop. simplify_eq. by exists vs.
Qed.

End reachable_facts.

(** * The claims *)

(** C1 (as the code has it): on a well-formed channel with nothing
    buffered, open or closed, [try_recv] dereferences the null pointer that
    [try_pop] hands back, so it does not return "no value"; with a value
    buffered it returns the front value and takes it off the queue. *)
Theorem C1_try_recv_front_or_null_dereference {T : Type} (ch : Channel T) (vs : list T) :
  queue_inv (que ch) vs →
  match vs with
  | [] =>
      Channel.try_recv ch = Undefined ∧
      threadsafe_queue.try_pop (que ch) = Ret (None, que ch)
  | v :: vs' =>
      ∃ ch', Channel.try_recv ch = Ret (Some v, ch') ∧
             queue_inv (que ch') vs' ∧ _closed ch' = _closed ch
  end.
Proof.
  intros Hinv. destruct vs as [|v vs'].
  - split; [by apply Channel_try_recv_empty|]. by apply pops_empty.
  - by apply Channel_try_recv_spec.
Qed.

Lemma C1_witness_empty_closed :
  queue_inv (que (closed_channel_with [])) [] ∧
  Channel.try_recv (closed_channel_with []) = Undefined ∧
  threadsafe_queue.try_pop (que (closed_channel_with [])) =
    Ret (None, que (closed_channel_with [])).
Proof.
  assert (queue_inv (que (closed_channel_with [])) []) as Hinv
    by solve_queue_inv.
  split; [exact Hinv|].
  exact (C1_try_recv_front_or_null_dereference (closed_channel_with []) [] Hinv).
Defined.

(** C2: a consumer is asleep in [recv] on a well-formed channel with
    nothing buffered.  [close_channel] sets the flag, leaves the queue as it
    is and notifies nobody; the wait predicate is evaluated on the queue
    alone and is still false; and whatever follows, as long as nobody sends
    (further calls of [close_channel], spurious wake-ups), the consumer is
    still asleep. *)
Theorem C2_close_does_not_wake_blocked_recv {T : Type}
    (ch : Channel T) (tr : list (event T)) :
  queue_inv (que ch) [] →
  forallb (λ e, negb (is_send e)) tr = true →
  Channel.close_channel ch = Ret (tt, MkChannel (que ch) true) ∧
  notified ch (other_thread Channel.close_channel ch) = false ∧
  threadsafe_queue.wait_pred (que (other_thread Channel.close_channel ch)) =
    Ret (false, que ch) ∧
  run (ev_close :: tr) (ch, Waiting) = (MkChannel (que ch) true, Waiting).
Proof.
  intros Hinv Hns. split; [done|]. split.
  { unfold notified, other_thread. simpl. rewrite bool_decide_eq_false_2; [done|lia]. }
  split.
  { unfold other_thread. simpl. by rewrite (wait_pred_spec _ _ Hinv). }
  rewrite run_cons, (step_close_empty _ Hinv).
  destruct (run_without_send (MkChannel (que ch) true) tr Hinv Hns)
    as (cl & Hrun & Hcl).
  rewrite Hrun. by rewrite Hcl.
Qed.

Lemma C2_witness_close_and_wakeups :
  queue_inv (que (Channel.ctor (T:=nat))) [] ∧
  forallb (λ e : event nat, negb (is_send e)) [ev_spurious; ev_close; ev_spurious] = true ∧
  Channel.close_channel (Channel.ctor (T:=nat)) =
    Ret (tt, MkChannel (que Channel.ctor) true) ∧
  notified (Channel.ctor (T:=nat)) (other_thread Channel.close_channel Channel.ctor) = false ∧
  threadsafe_queue.wait_pred (que (other_thread Channel.close_channel (Channel.ctor (T:=nat)))) =
    Ret (false, que Channel.ctor) ∧
  run [ev_close; ev_spurious; ev_close; ev_spurious] (Channel.ctor (T:=nat), Waiting) =
    (MkChannel (que Channel.ctor) true, Waiting).
Proof.
  assert (queue_inv (que (Channel.ctor (T:=nat))) []) as Hinv by solve_queue_inv.
  assert (forallb (λ e : event nat, negb (is_send e))
            [ev_spurious; ev_close; ev_spurious] = true) as Hns by reflexivity.
  split; [exact Hinv|]. split; [exact Hns|].
  exact (C2_close_does_not_wake_blocked_recv Channel.ctor _ Hinv Hns).
Defined.

(** C3: one thread makes a channel and sends [vs] through the producer
    handle.  As many calls of [recv] as values were sent return exactly
    [vs], in the order of the sends, whether the channel has been closed in
    between or not; and reading as many values through an iterator over the
    open channel yields [vs] in the same order. *)
Theorem C3_fifo_single_thread {T : Type} (w : world T) (vs : list T) :
  (∀ closing, ∃ w', send_then_recv closing vs w = Ret (Some <$> vs, w')) ∧
  (∀ v fuel, ∃ w', send_then_iterate (S fuel) (v :: vs) w = Ret (v :: vs, w')).
Proof.
  split.
  - intros closing. destruct (make_channel_spec w) as (c & w0 & Hmk & Hinv0).
    destruct (send_all_spec _ _ _ _ vs Hinv0) as (w1 & Hsend & Hinv1).
    simpl in Hinv1.
    assert (∃ w2 cl, (if closing then Sender.close (MkSender (Some c)) else ret tt) w1
                     = Ret (tt, w2) ∧ chan_inv w2 c (vs ++ []) cl)
      as (w2 & cl & Hclose & Hinv2).
    { rewrite app_nil_r. destruct closing.
      - destruct (Sender_close_spec _ _ _ _ Hinv1) as (w2 & ? & ?). eauto.
      - exists w1, false. done. }
    destruct (recv_n_spec _ _ _ _ _ Hinv2) as (w3 & Hrecv & _).
    exists w3. unfold send_then_recv, bind. rewrite Hmk. simpl.
    by rewrite Hsend, Hclose, Hrecv.
  - intros v fuel. destruct (make_channel_spec w) as (c & w0 & Hmk & Hinv0).
    destruct (send_all_spec _ _ _ _ (v :: vs) Hinv0) as (w1 & Hsend & Hinv1).
    simpl in Hinv1.
    destruct (begin_open _ _ _ _ fuel Hinv1) as (w2 & Hbegin & Hinv2).
    rewrite <- (app_nil_r vs) in Hinv2.
    destruct (collect_open _ _ v _ _ fuel Hinv2) as (w3 & x & Hcol & _).
    exists w3. unfold send_then_iterate, bind. rewrite Hmk.
    cbn [fst snd]. rewrite Hsend, Hbegin.
    change (length (v :: vs)) with (S (length vs)). by rewrite Hcol.
Qed.

(** C4 (amended): five values are sent into a fresh channel and the
    consumer iterates.  If the channel is closed when the iteration has
    read [k] of them, the next advance ([begin] itself when [k = 0]) ends
    the iteration: exactly the first [k] values have been yielded, in send
    order, the iterator equals [end()], and the other values stay in the
    queue.  All five are yielded only when the channel is closed after the
    fifth has been read. *)
Theorem C4_iteration_ends_at_close {T : Type}
    (w : world T) (vs : list T) (k fuel : nat) :
  length vs = 5 → k ≤ 5 →
  ∃ c w' it, send_iterate_close (S fuel) k vs w = Ret ((take k vs, it), w') ∧
             iterator.op_eq it Receiver_end = true ∧
             chan_inv w' c (drop k vs) true.
Proof.
  intros Hlen Hk. destruct (make_channel_spec w) as (c & w0 & Hmk & Hinv0).
  destruct (send_all_spec _ _ _ _ vs Hinv0) as (w1 & Hsend & Hinv1).
  simpl in Hinv1.
  destruct (iterate_then_close_spec _ _ _ k fuel Hinv1) as (w2 & Hit & Hinv2);
    [lia|].
  exists c, w2, Receiver_end. split; [|done].
  unfold send_iterate_close, bind. rewrite Hmk. cbn [fst snd].
  by rewrite Hsend, Hit.
Qed.

Lemma C4_witness_close_after_three :
  length [1; 2; 3; 4; 5] = 5 ∧ 3 ≤ 5 ∧
  ∃ c w' it, send_iterate_close 1 3 [1; 2; 3; 4; 5] (∅ : world nat) =
               Ret ((take 3 [1; 2; 3; 4; 5], it), w') ∧
             iterator.op_eq it Receiver_end = true ∧
             chan_inv w' c (drop 3 [1; 2; 3; 4; 5]) true.
Proof.
  assert (length [1; 2; 3; 4; 5] = 5) as Hlen by reflexivity.
  assert (3 ≤ 5) as Hk by lia.
  split; [exact Hlen|]. split; [exact Hk|].
  exact (C4_iteration_ends_at_close ∅ [1; 2; 3; 4; 5] 3 0 Hlen Hk).
Defined.

(** C4 as stated fails: five values are sent, the channel is closed, and
    the range-based for loop over the receiver yields nothing. *)
Lemma C4_counterexample_closed_before_iteration :
  (∃ w', send_close_for_each 1 6 [1; 2; 3; 4; 5] (∅ : world nat) = Ret ([], w')) ∧
  ¬ (∃ w', send_close_for_each 1 6 [1; 2; 3; 4; 5] (∅ : world nat) =
             Ret ([1; 2; 3; 4; 5], w')).
Proof.
  split.
  - eexists. vm_compute. reflexivity.
  - intros [w' H]. vm_compute in H. discriminate H.
Qed.

(** C5: whatever the closed flag says, [send] on a well-formed channel
    returns normally, appends the value to the buffered values and leaves
    the flag as it was; the same holds through a live producer handle. *)
Theorem C5_send_succeeds_also_when_closed {T : Type}
    (w : world T) (c : cref) (ch : Channel T) (vs : list T) (v : T) :
  w !! c = Some ch → queue_inv (que ch) vs →
  ∃ ch', Channel.send v ch = Ret (tt, ch') ∧
         Sender.send (MkSender (Some c)) v w =
           Ret (MkSender (Some c), <[c := ch']> w) ∧
         queue_inv (que ch') (vs ++ [v]) ∧
         _closed ch' = _closed ch.
Proof.
  intros Hc Hinv.
  destruct (Channel_send_spec _ _ v Hinv) as (ch' & Hsend & Hinv' & Hcl & _).
  exists ch'. split; [done|]. split; [|done].
  unfold Sender.send, Sender.moved, arrow, bind, ret. simpl.
  by rewrite Hc, Hsend.
Qed.

Lemma C5_witness_closed_channel :
  (world_with (closed_channel_with [7])) !! 1%positive = Some (closed_channel_with [7]) ∧
  queue_inv (que (closed_channel_with [7])) [7] ∧
  _closed (closed_channel_with [7]) = true ∧
  ∃ ch', Channel.send 8 (closed_channel_with [7]) = Ret (tt, ch') ∧
         Sender.send (MkSender (Some 1%positive)) 8 (world_with (closed_channel_with [7])) =
           Ret (MkSender (Some 1%positive), <[1%positive := ch']> (world_with (closed_channel_with [7]))) ∧
         queue_inv (que ch') ([7] ++ [8]) ∧
         _closed ch' = _closed (closed_channel_with [7]).
Proof.
  assert (world_with (closed_channel_with [7]) !! 1%positive =
            Some (closed_channel_with [7])) as Hc by (vm_compute; reflexivity).
  assert (queue_inv (que (closed_channel_with [7])) [7]) as Hinv
    by solve_queue_inv.
  split; [exact Hc|]. split; [exact Hinv|]. split; [reflexivity|].
  exact (C5_send_succeeds_also_when_closed _ _ _ _ 8 Hc Hinv).
Defined.

(** C6: on a handle whose channel pointer is null, as a moved-from handle
    has it, each public member function throws [std::logic_error] before
    it touches any channel: [send], [close] and [closed] of a producer
    handle, [recv], [try_recv] and [closed] of a consumer handle. *)
Theorem C6_moved_handle_throws {T : Type}
    (s : Sender) (r : Receiver) (v : T) (w : world T) :
  Sender_channel s = None → Receiver_channel r = None →
  Sender.send s v w = Throw (logic_error "Sender has been moved.") ∧
  Sender.close s w = Throw (logic_error "Sender has been moved.") ∧
  Sender.closed s w = Throw (logic_error "Sender has been moved.") ∧
  Receiver.recv r w = Throw (logic_error "Receiver has been moved.") ∧
  Receiver.try_recv r w = Throw (logic_error "Receiver has been moved.") ∧
  Receiver.closed r w = Throw (logic_error "Receiver has been moved.").
Proof.
  intros Hs Hr. unfold_handle. by rewrite Hs, Hr.
Qed.

Lemma C6_witness_after_move :
  Sender_channel (Sender.move (MkSender (Some 1%positive))).2 = None ∧
  Receiver_channel (Receiver.move (MkReceiver (Some 1%positive))).2 = None ∧
  Sender.send (Sender.move (MkSender (Some 1%positive))).2 7
      (world_with Channel.ctor) =
    Throw (logic_error "Sender has been moved.") ∧
  Sender.close (Sender.move (MkSender (Some 1%positive))).2
      (world_with Channel.ctor) =
    Throw (logic_error "Sender has been moved.") ∧
  Sender.closed (Sender.move (MkSender (Some 1%positive))).2
      (world_with Channel.ctor) =
    Throw (logic_error "Sender has been moved.") ∧
  Receiver.recv (Receiver.move (MkReceiver (Some 1%positive))).2
      (world_with Channel.ctor) =
    Throw (logic_error "Receiver has been moved.") ∧
  Receiver.try_recv (Receiver.move (MkReceiver (Some 1%positive))).2
      (world_with Channel.ctor) =
    Throw (logic_error "Receiver has been moved.") ∧
  Receiver.closed (Receiver.move (MkReceiver (Some 1%positive))).2
      (world_with Channel.ctor) =
    Throw (logic_error "Receiver has been moved.").
Proof.
  split; [reflexivity|]. split; [reflexivity|].
  exact (C6_moved_handle_throws _ _ 7 (world_with Channel.ctor)
           (eq_refl : Sender_channel (Sender.move (MkSender (Some 1%positive))).2 = None)
           (eq_refl : Receiver_channel (Receiver.move (MkReceiver (Some 1%positive))).2 = None)).
Defined.

(** C7: when the channel behind a live consumer handle is closed,
    [begin()] returns the iterator that [end()] returns, the two compare
    equal, and the channel is left exactly as it was: nothing has been
    received. *)
Theorem C7_begin_on_closed_channel_is_end {T : Type}
    (fuel : nat) (r : Receiver) (c : cref) (ch : Channel T) (w : world T) :
  Receiver_channel r = Some c → w !! c = Some ch → _closed ch = true →
  ∃ it, Receiver_begin fuel r w = Ret (it, w) ∧
        it = Receiver_end ∧
        iterator.op_eq it Receiver_end = true ∧
        iterator.op_ne it Receiver_end = false.
Proof.
  intros Hr Hc Hcl. exists Receiver_end. split; [|done].
  unfold Receiver_begin, iterator.ctor_from. unfold_handle.
  rewrite Hr, Hc. simpl. by rewrite insert_id, Hcl.
Qed.

Lemma C7_witness_closed_with_values :
  Receiver_channel (MkReceiver (Some 1%positive)) = Some 1%positive ∧
  world_with (closed_channel_with [7; 8]) !! 1%positive =
    Some (closed_channel_with [7; 8]) ∧
  _closed (closed_channel_with [7; 8]) = true ∧
  ∃ it, Receiver_begin 0 (MkReceiver (Some 1%positive))
          (world_with (closed_channel_with [7; 8])) =
          Ret (it, world_with (closed_channel_with [7; 8])) ∧
        it = Receiver_end ∧
        iterator.op_eq it Receiver_end = true ∧
        iterator.op_ne it Receiver_end = false.
Proof.
  assert (world_with (closed_channel_with [7; 8]) !! 1%positive =
            Some (closed_channel_with [7; 8])) as Hc by (vm_compute; reflexivity).
  split; [reflexivity|]. split; [exact Hc|]. split; [reflexivity|].
  exact (C7_begin_on_closed_channel_is_end 0 (MkReceiver (Some 1%positive))
           1%positive (closed_channel_with [7; 8])
           (world_with (closed_channel_with [7; 8])) eq_refl Hc eq_refl).
Defined.

(** C8: [operator==] is true exactly when the receiver pointers of both
    iterators are null, that is when both are at the end; it is false as
    soon as one of them is active, also when an active iterator is compared
    with itself; and [operator!=] is its negation. *)
Theorem C8_iterator_equality {T : Type} (a b : iterator T) :
  (iterator.op_eq a b = true ↔ receiver a = None ∧ receiver b = None) ∧
  (is_Some (receiver a) ∨ is_Some (receiver b) → iterator.op_eq a b = false) ∧
  (is_Some (receiver a) → iterator.op_eq a a = false) ∧
  iterator.op_ne a b = negb (iterator.op_eq a b).
Proof.
  unfold iterator.op_ne, iterator.op_eq.
  destruct a as [[ra|] ca], b as [[rb|] cb]; simpl;
    (split; [split; [try done; intros [? ?]; done | try done; intros [? ?]; done]|]);
    (split; [intros [[? ?]|[? ?]]; done|]);
    (split; [try done; intros [? ?]; done | done]).
Qed.

Lemma C8_witness_same_active_iterator :
  is_Some (receiver (MkIterator (Some (MkReceiver (Some 1%positive))) (Some 7))) ∧
  iterator.op_eq (MkIterator (Some (MkReceiver (Some 1%positive))) (Some 7))
                 (MkIterator (Some (MkReceiver (Some 1%positive))) (Some 7)) = false.
Proof.
  assert (is_Some (receiver (MkIterator (Some (MkReceiver (Some 1%positive))) (Some 7))))
    as Hact by (eexists; reflexivity).
  split; [exact Hact|].
  exact (proj1 (proj2 (proj2
    (C8_iterator_equality
       (MkIterator (Some (MkReceiver (Some 1%positive))) (Some 7))
       (MkIterator (Some (MkReceiver (Some 1%positive))) (Some 7))))) Hact).
Defined.

(** C9: every state that the constructor, [push], [wait_and_pop],
    [try_pop] and [empty] can bring a queue into has a non-null [head] and
    a non-null [tail]; [tail] is an allocated dummy node that the [next]
    links reach from [head]; [head == tail] exactly when nothing is
    buffered; and the values pushed so far are the values popped so far
    followed by the values on the way from [head] to [tail], each once and
    in order.  In such a state [push] returns, and the pops hand out the
    oldest buffered value, or find the queue empty. *)
Theorem C9_queue_invariant {T : Type}
    (q : threadsafe_queue T) (pushed popped : list T) :
  reachable q pushed popped →
  ∃ h t vs,
    head q = Some h ∧ tail q = Some t ∧
    is_Some (heap q !! h) ∧ heap q !! t = Some (Node None None) ∧
    lseg (heap q) h vs t ∧
    (head q = tail q ↔ vs = []) ∧
    pushed = popped ++ vs ∧
    (∀ v, ∃ q', threadsafe_queue.push v q = Ret (tt, q') ∧
                reachable q' (pushed ++ [v]) popped) ∧
    match vs with
    | [] =>
        threadsafe_queue.wait_and_pop q = Blocked ∧
        threadsafe_queue.try_pop q = Ret (None, q)
    | v :: _ =>
        (∃ q', threadsafe_queue.wait_and_pop q = Ret (Some v, q') ∧
               reachable q' pushed (popped ++ [v])) ∧
        (∃ q', threadsafe_queue.try_pop q = Ret (Some v, q') ∧
               reachable q' pushed (popped ++ [v]))
    end.
Proof.
  intros Hreach.
  destruct (reachable_inv _ _ _ Hreach) as (vs & Hinv & Heq).
  pose proof Hinv as (h & t & Hh & Ht & Hseg & Hd).
  exists h, t, vs. split; [done|]. split; [done|]. split.
  { destruct vs; simpl in Hseg; [by subst; eauto|].
    destruct Hseg as (_ & p' & -> & _). eauto. }
  split; [done|]. split; [done|]. split.
  { rewrite Hh, Ht. rewrite <- (lseg_nil_iff _ _ _ _ Hseg).
    split; [by intros [= ->]|by intros ->]. }
  split; [done|]. split.
  { intros v. destruct (push_spec _ _ v Hinv) as (q' & Hpush & _).
    exists q'. split; [done|]. by eapply reach_push. }
  destruct vs as [|v vs].
  - destruct (pops_empty _ Hinv) as (? & _ & ? & _). done.
  - split.
    + destruct (wait_and_pop_spec _ _ _ Hinv) as (q' & Hpop & _).
      exists q'. split; [done|].
      by apply (reach_wait_and_pop q pushed popped (Some v) q').
    + destruct (try_pop_spec _ _ _ Hinv) as (q' & Hpop & _).
      exists q'. split; [done|].
      by apply (reach_try_pop q pushed popped (Some v) q').
Qed.

Lemma C9_witness_after_two_pushes_and_a_pop :
  reachable queue_8 [7; 8] [7] ∧
  ∃ h t vs,
    head queue_8 = Some h ∧ tail queue_8 = Some t ∧
    is_Some (heap queue_8 !! h) ∧ heap queue_8 !! t = Some (Node None None) ∧
    lseg (heap queue_8) h vs t ∧
    (head queue_8 = tail queue_8 ↔ vs = []) ∧
    [7; 8] = [7] ++ vs ∧
    (∀ v, ∃ q', threadsafe_queue.push v queue_8 = Ret (tt, q') ∧
                reachable q' ([7; 8] ++ [v]) [7]) ∧
    match vs with
    | [] =>
        threadsafe_queue.wait_and_pop queue_8 = Blocked ∧
        threadsafe_queue.try_pop queue_8 = Ret (None, queue_8)
    | v :: _ =>
        (∃ q', threadsafe_queue.wait_and_pop queue_8 = Ret (Some v, q') ∧
               reachable q' [7; 8] ([7] ++ [v])) ∧
        (∃ q', threadsafe_queue.try_pop queue_8 = Ret (Some v, q') ∧
               reachable q' [7; 8] ([7] ++ [v]))
    end.
Proof.
  assert (reachable queue_8 [7; 8] [7]) as Hreach.
  { apply (reach_try_pop queue_7_8 [7; 8] [] (Some 7) queue_8);
      [|vm_compute; reflexivity].
    apply (reach_push
             (queue_after (threadsafe_queue.push 7) threadsafe_queue.ctor)
             [7] [] 8 queue_7_8); [|vm_compute; reflexivity].
    apply (reach_push threadsafe_queue.ctor [] [] 7
             (queue_after (threadsafe_queue.push 7) threadsafe_queue.ctor));
      [|vm_compute; reflexivity].
    apply reach_ctor. }
  split; [exact Hreach|].
  exact (C9_queue_invariant queue_8 [7; 8] [7] Hreach).
Defined.

(** C10: [recv] never returns the empty optional, neither on the core nor
    through a consumer handle.  On a well-formed channel, open or closed,
    it returns the oldest buffered value when there is one, and when there
    is none the caller sleeps on the condition variable: no outcome of
    [recv] says "no value, channel closed". *)
Theorem C10_recv_returns_a_value_or_sleeps {T : Type}
    (ch : Channel T) (vs : list T) (r : Receiver) (w : world T) :
  queue_inv (que ch) vs →
  (∀ ch', Channel.recv ch ≠ Ret (None, ch')) ∧
  (∀ w', Receiver.recv r w ≠ Ret (None, w')) ∧
  match vs with
  | [] => Channel.recv ch = Blocked
  | v :: vs' =>
      ∃ ch', Channel.recv ch = Ret (Some v, ch') ∧
             queue_inv (que ch') vs' ∧ _closed ch' = _closed ch
  end.
Proof.
  intros Hinv. split; [apply Channel_recv_engaged|].
  split; [apply Receiver_recv_engaged|].
  destruct vs as [|v vs'].
  - by apply Channel_recv_empty.
  - by apply Channel_recv_spec.
Qed.

Lemma C10_witness_closed_and_empty :
  queue_inv (que (closed_channel_with [])) [] ∧
  _closed (closed_channel_with []) = true ∧
  (∀ ch', Channel.recv (closed_channel_with []) ≠ Ret (None, ch')) ∧
  (∀ w', Receiver.recv (MkReceiver (Some 1%positive))
           (world_with (closed_channel_with [])) ≠ Ret (None, w')) ∧
  Channel.recv (closed_channel_with []) = Blocked.
Proof.
  assert (queue_inv (que (closed_channel_with [])) []) as Hinv
    by solve_queue_inv.
  split; [exact Hinv|]. split; [reflexivity|].
  exact (C10_recv_returns_a_value_or_sleeps (closed_channel_with []) []
           (MkReceiver (Some 1%positive))
           (world_with (closed_channel_with [])) Hinv).
Defined.

(** * Further properties

    First the facts they rest on, then the properties themselves. *)

Section queue_more.
Context {T : Type}.
Implicit Types (q : threadsafe_queue T) (vs : list T).

(** The state [push] leaves behind, written out. *)
Lemma push_exact q vs v :
  queue_inv q vs →
  ∃ t, tail q = Some t ∧ is_Some (heap q !! t) ∧
       heap q !! fresh (dom (heap q)) = None ∧
       threadsafe_queue.push v q =
         Ret (tt, Queue (<[t := Node (Some v) (Some (fresh (dom (heap q))))]>
                           (<[fresh (dom (heap q)) := Node None None]> (heap q)))
                        (head q) (Some (fresh (dom (heap q))))
                        (S (data_cond q))).
Proof.
  intros (h & t & Hh & Ht & Hseg & Hd).
  destruct q as [hp hd tl dc]; simpl in *; subst.
  set (l := fresh (dom hp)).
  assert (hp !! l = None) as Hl by (apply not_elem_of_dom, is_fresh).
  assert (t ≠ l) by congruence.
  exists t. split; [done|]. split; [eauto|]. split; [done|].
  unfold_queue. fold l.
  rewrite (lookup_insert_ne _ l t) by done. rewrite Hd. simpl.
  rewrite (lookup_insert_ne _ l t) by done. rewrite Hd. simpl.
  rewrite lookup_insert_eq. simpl. rewrite lookup_insert_eq. simpl.
  by rewrite delete_chain_null, insert_insert_eq.
Qed.

(** The four ways to pop from a queue that is not empty end in one and the
    same state, written out. *)
Lemma pops_exact q v vs :
  queue_inv q (v :: vs) →
  ∃ h p', head q = Some h ∧
          heap q !! h = Some (Node (Some v) (Some p')) ∧
          threadsafe_queue.wait_and_pop q =
            Ret (Some v, Queue (delete h (heap q)) (Some p') (tail q) (data_cond q)) ∧
          threadsafe_queue.wait_and_pop_value q =
            Ret (v, Queue (delete h (heap q)) (Some p') (tail q) (data_cond q)) ∧
          threadsafe_queue.try_pop q =
            Ret (Some v, Queue (delete h (heap q)) (Some p') (tail q) (data_cond q)) ∧
          threadsafe_queue.try_pop_value q =
            Ret ((true, Some v), Queue (delete h (heap q)) (Some p') (tail q) (data_cond q)).
Proof.
  intros (h & t & Hh & Ht & Hseg & Hd).
  destruct q as [hp hd tl dc]; simpl in *; subst.
  destruct (pop_shape _ _ _ _ _ dc Hseg Hd) as (p' & Hp & Hne & _).
  exists h, p'. split; [done|]. split; [done|].
  repeat split; unfold_queue; rewrite bool_decide_eq_false_2 by done; simpl;
    rewrite ?Hp; simpl; rewrite ?Hp; simpl; rewrite ?Hp, ?lookup_insert_eq; simpl;
    (erewrite delete_chain_single by apply lookup_insert_eq);
    by rewrite delete_insert_eq.
Qed.

(** Besides the shape, a reachable queue keeps count: one node for each
    buffered value and one dummy, one notification for each push. *)
Lemma reachable_tight q pushed popped :
  reachable q pushed popped →
  ∃ vs, queue_inv q vs ∧ pushed = popped ++ vs ∧
        size (heap q) = S (length vs) ∧ data_cond q = length pushed.
Proof.
  induction 1 as [|q pushed popped v q' _ (vs & Hinv & -> & Hsz & Hdc) Hop
                  |q pushed popped r q' _ (vs & Hinv & -> & Hsz & Hdc) Hop
                  |q pushed popped v q' _ (vs & Hinv & -> & Hsz & Hdc) Hop
                  |q pushed popped r q' _ (vs & Hinv & -> & Hsz & Hdc) Hop
                  |q pushed popped b r q' _ (vs & Hinv & -> & Hsz & Hdc) Hop
                  |q pushed popped b q' _ (vs & Hinv & -> & Hsz & Hdc) Hop].
  - exists []. split; [apply ctor_inv|]. split; [done|]. split; [|done].
    simpl. by rewrite map_size_singleton.
  - destruct (push_spec _ _ v Hinv) as (q1 & Hpush & Hinv1 & _).
    destruct (push_exact _ _ v Hinv) as (t & Ht & [nt Hnt] & Hfresh & Hex).
    rewrite Hpush in Hop. rewrite Hpush in Hex. simplify_eq.
    exists (vs ++ [v]). split; [done|]. split; [by rewrite app_assoc|]. split.
    + simpl. rewrite map_size_insert_Some.
      * rewrite map_size_insert_None by done. rewrite Hsz, length_app. simpl. lia.
      * rewrite lookup_insert_ne by congruence. eauto.
    + simpl. rewrite Hdc, !length_app. simpl. lia.
  - destruct vs as [|x vs].
    + destruct (pops_empty _ Hinv) as (Hb & _). congruence.
    + destruct (wait_and_pop_spec _ _ _ Hinv) as (q1 & Hpop & Hinv1 & _).
      destruct (pops_exact _ _ _ Hinv) as (h & p' & Hh & Hp & Hex & _).
      rewrite Hpop in Hop. rewrite Hpop in Hex. simplify_eq.
      exists vs. split; [done|]. split; [by rewrite <- app_assoc|]. split.
      * simpl. rewrite map_size_delete_Some by eauto. rewrite Hsz. simpl. lia.
      * simpl. rewrite Hdc. done.
  - destruct vs as [|x vs].
    + destruct (pops_empty _ Hinv) as (_ & Hb & _). congruence.
    + destruct (wait_and_pop_value_spec _ _ _ Hinv) as (q1 & Hpop & Hinv1 & _).
      destruct (pops_exact _ _ _ Hinv) as (h & p' & Hh & Hp & _ & Hex & _).
      rewrite Hpop in Hop. rewrite Hpop in Hex. simplify_eq.
      exists vs. split; [done|]. split; [by rewrite <- app_assoc|]. split.
      * simpl. rewrite map_size_delete_Some by eauto. rewrite Hsz. simpl. lia.
      * simpl. rewrite Hdc. done.
  - destruct vs as [|x vs].
    + destruct (pops_empty _ Hinv) as (_ & _ & Hb & _).
      rewrite Hb in Hop. simplify_eq. exists []. simpl. rewrite !app_nil_r in *. done.
    + destruct (try_pop_spec _ _ _ Hinv) as (q1 & Hpop & Hinv1 & _).
      destruct (pops_exact _ _ _ Hinv) as (h & p' & Hh & Hp & _ & _ & Hex & _).
      rewrite Hpop in Hop. rewrite Hpop in Hex. simplify_eq.
      exists vs. split; [done|]. split; [by rewrite <- app_assoc|]. split.
      * simpl. rewrite map_size_delete_Some by eauto. rewrite Hsz. simpl. lia.
      * simpl. rewrite Hdc. done.
  - destruct vs as [|x vs].
    + destruct (pops_empty _ Hinv) as (_ & _ & _ & Hb).
      rewrite Hb in Hop. simplify_eq. exists []. simpl. rewrite !app_nil_r in *. done.
    + destruct (try_pop_value_spec _ _ _ Hinv) as (q1 & Hpop & Hinv1 & _).
      destruct (pops_exact _ _ _ Hinv) as (h & p' & Hh & Hp & _ & _ & _ & Hex).
      rewrite Hpop in Hop. rewrite Hpop in Hex. simplify_eq.
      exists vs. split; [done|]. split; [by rewrite <- app_assoc|]. split.
      * simpl. rewrite map_size_delete_Some by eauto. rewrite Hsz. simpl. lia.
      * simpl. rewrite Hdc. done.
  - rewrite (empty_spec _ _ Hinv) in Hop. simplify_eq. by exists vs.
Qed.



End queue_more.

Section handle_more.
Context {T : Type}.
Implicit Types (w : world T) (c : cref) (vs : list T) (cl : bool).

Lemma Sender_closed_spec w c vs cl :
  chan_inv w c vs cl →
  Sender.closed (MkSender (Some c)) w = Ret (cl, w).
Proof.
  intros (ch & Hc & Hinv & Hcl). unfold_handle. rewrite Hc. simpl.
  by rewrite insert_id, Hcl.
Qed.

Lemma do_call_answers w c vs cl (k : call T) :
  chan_inv w c vs cl →
  answers_alike c (do_call (MkSender (Some c)) (MkReceiver (Some c)) k w)
                  (fifo_call k (vs, cl)).
Proof.
  intros Hinv. destruct k as [v|v| | | | | |]; simpl.
  - destruct (Sender_send_spec _ _ _ _ v Hinv) as (w' & Hs & Hinv').
    exists w'. unfold bind. by rewrite Hs.
  - destruct (Sender_send_spec _ _ _ _ v Hinv) as (w' & Hs & Hinv').
    exists w'. unfold bind, Sender.copy. simpl. by rewrite Hs.
  - destruct (Sender_close_spec _ _ _ _ Hinv) as (w' & Hs & Hinv').
    exists w'. unfold bind. by rewrite Hs.
  - destruct (Sender_close_spec _ _ _ _ Hinv) as (w' & Hs & Hinv').
    exists w'. unfold bind, Sender.copy. simpl. by rewrite Hs.
  - exists w. unfold bind. by rewrite (Sender_closed_spec _ _ _ _ Hinv).
  - destruct vs as [|v vs]; simpl.
    + unfold bind. by rewrite (Receiver_recv_empty _ _ _ Hinv).
    + destruct (Receiver_recv_spec _ _ _ _ _ Hinv) as (w' & Hr & Hinv').
      exists w'. unfold bind. by rewrite Hr.
  - destruct vs as [|v vs]; simpl.
    + unfold bind. by rewrite (Receiver_try_recv_empty _ _ _ Hinv).
    + destruct (Receiver_try_recv_spec _ _ _ _ _ Hinv) as (w' & Hr & Hinv').
      exists w'. unfold bind. by rewrite Hr.
  - exists w. unfold bind. by rewrite (Receiver_closed_spec _ _ _ _ Hinv).
Qed.

Lemma do_calls_answer w c vs cl (cs : list (call T)) :
  chan_inv w c vs cl →
  answers_alike c (do_calls (MkSender (Some c)) (MkReceiver (Some c)) cs w)
                  (fifo_calls cs (vs, cl)).
Proof.
  revert w vs cl. induction cs as [|k cs IH]; intros w vs cl Hinv.
  - simpl. by exists w.
  - pose proof (do_call_answers _ _ _ _ k Hinv) as Hk.
    simpl. unfold bind at 1 3.
    destruct (fifo_call k (vs, cl)) as [[a [vs1 cl1]]|e| | |]; simpl in Hk.
    + destruct Hk as (w1 & -> & Hinv1). simpl in Hinv1.
      pose proof (IH _ _ _ Hinv1) as Hrest. unfold bind.
      destruct (fifo_calls cs (vs1, cl1)) as [[rs [vs2 cl2]]|e| | |];
        simpl in Hrest.
      * destruct Hrest as (w2 & -> & Hinv2). by exists w2.
      * by rewrite Hrest.
      * by rewrite Hrest.
      * by rewrite Hrest.
      * by rewrite Hrest.
    + by rewrite Hk.
    + by rewrite Hk.
    + by rewrite Hk.
    + by rewrite Hk.
Qed.

End handle_more.

(** ** What never waits *)

Section never_waits_facts.
Context {T : Type}.

Lemma never_waits_ret {S A : Type} (a : A) : never_waits (ret a : M S A).
Proof. done. Qed.

Lemma never_waits_gets {S A : Type} (f : S → A) : never_waits (gets f).
Proof. done. Qed.

Lemma never_waits_modify {S : Type} (f : S → S) : never_waits (modify f).
Proof. done. Qed.

Lemma never_waits_throw {S A : Type} (e : exn) : never_waits (throw e : M S A).
Proof. done. Qed.

Lemma never_waits_undefined {S A : Type} : never_waits (undefined : M S A).
Proof. done. Qed.

Lemma never_waits_bind {S A B : Type} (m : M S A) (k : A → M S B) :
  never_waits m → (∀ a, never_waits (k a)) → never_waits (bind m k).
Proof.
  intros Hm Hk s. unfold bind. destruct (Hm s) as [? ?].
  destruct (m s) as [[a s']| | | |]; try done. apply Hk.
Qed.

Lemma never_waits_zoom {S S' A : Type} (proj : S → S') (upd : S' → S → S)
    (m : M S' A) :
  never_waits m → never_waits (zoom proj upd m).
Proof.
  intros Hm s. unfold zoom. destruct (Hm (proj s)) as [? ?].
  by destruct (m (proj s)) as [[a s']| | | |].
Qed.

Lemma never_waits_arrow {A : Type} (p : option cref) (m : M (Channel T) A) :
  never_waits m → never_waits (arrow p m).
Proof.
  intros Hm w. unfold arrow. destruct p as [c|]; [|done].
  destruct (w !! c) as [ch|]; [|done]. destruct (Hm ch) as [? ?].
  by destruct (m ch) as [[a ch']| | | |].
Qed.

Lemma never_waits_deref (p : option loc) :
  never_waits (threadsafe_queue.deref (T:=T) p).
Proof.
  intros q. unfold threadsafe_queue.deref. destruct p as [l|]; [|done].
  by destruct (heap q !! l).
Qed.

Lemma never_waits_set_heap (h : gmap loc (node T)) :
  never_waits (threadsafe_queue.set_heap h).
Proof. done. Qed.

Lemma never_waits_assign (p : option loc) (n : node T) :
  never_waits (threadsafe_queue.assign p n).
Proof.
  apply never_waits_bind; [apply never_waits_deref|]. intros _.
  destruct p; [|done]. by apply never_waits_bind.
Qed.

Lemma never_waits_destroy (p : option loc) :
  never_waits (threadsafe_queue.destroy (T:=T) p).
Proof. by apply never_waits_bind. Qed.

Lemma never_waits_pop_head : never_waits (threadsafe_queue.pop_head (T:=T)).
Proof.
  apply never_waits_bind; [done|]. intros old_head.
  apply never_waits_bind; [done|]. intros _.
  apply never_waits_bind; [apply never_waits_deref|]. intros n.
  apply never_waits_bind; [apply never_waits_assign|]. intros _.
  by apply never_waits_bind.
Qed.

Lemma never_waits_push (v : T) : never_waits (threadsafe_queue.push v).
Proof.
  apply never_waits_bind; [done|]. intros ptr.
  apply never_waits_bind; [done|]. intros t.
  apply never_waits_bind; [apply never_waits_deref|]. intros n.
  apply never_waits_bind; [apply never_waits_assign|]. intros _.
  apply never_waits_bind; [apply never_waits_deref|]. intros n'.
  apply never_waits_bind; [apply never_waits_assign|]. intros _.
  apply never_waits_bind; [apply never_waits_destroy|]. intros _.
  by apply never_waits_bind.
Qed.

Lemma never_waits_try_pop : never_waits (threadsafe_queue.try_pop (T:=T)).
Proof.
  apply never_waits_bind.
  { apply never_waits_bind; [done|]. intros h.
    apply never_waits_bind; [done|]. intros t.
    destruct (bool_decide (h = t)); [done|apply never_waits_pop_head]. }
  intros old_head. apply never_waits_bind.
  { destruct old_head; [|done].
    apply never_waits_bind; [apply never_waits_deref|done]. }
  intros r. apply never_waits_bind; [apply never_waits_destroy|done].
Qed.

Lemma never_waits_try_pop_value :
  never_waits (threadsafe_queue.try_pop_value (T:=T)).
Proof.
  apply never_waits_bind.
  { apply never_waits_bind; [done|]. intros h.
    apply never_waits_bind; [done|]. intros t.
    destruct (bool_decide (h = t)); [done|].
    apply never_waits_bind; [apply never_waits_deref|]. intros n.
    destruct (data n); [|done].
    apply never_waits_bind; [apply never_waits_pop_head|done]. }
  intros r. apply never_waits_bind; [apply never_waits_destroy|done].
Qed.

Lemma never_waits_empty : never_waits (threadsafe_queue.empty (T:=T)).
Proof.
  apply never_waits_bind; [done|]. intros h. by apply never_waits_bind.
Qed.

End never_waits_facts.

(** ** Channels side by side *)

Section frame_facts.
Context {T : Type}.
Implicit Types (w : world T) (c : cref).

Lemma arrow_frame {A : Type} c (m : M (Channel T) A) w a w' c' :
  arrow (Some c) m w = Ret (a, w') → c' ≠ c → w' !! c' = w !! c'.
Proof.
  unfold arrow. destruct (w !! c) as [ch|]; [|done].
  destruct (m ch) as [[a' ch']| | | |]; try done.
  intros [= _ <-] Hne. by rewrite lookup_insert_ne.
Qed.

Lemma bind_ret_inv {S A B : Type} (m : M S A) (k : A → M S B) s b s2 :
  bind m k s = Ret (b, s2) → ∃ a s1, m s = Ret (a, s1) ∧ k a s1 = Ret (b, s2).
Proof.
  unfold bind. destruct (m s) as [[a s1]| | | |]; try done. eauto.
Qed.

Lemma do_call_frame c (k : call T) w a w' c' :
  do_call (MkSender (Some c)) (MkReceiver (Some c)) k w = Ret (a, w') →
  c' ≠ c → w' !! c' = w !! c'.
Proof.
  intros Hrun Hne.
  destruct k; simpl in Hrun;
    apply bind_ret_inv in Hrun as (x & w1 & Hop & Hret);
    unfold ret in Hret; simplify_eq;
    unfold Sender.send, Sender.close, Sender.closed, Receiver.recv,
      Receiver.try_recv, Receiver.closed, Sender.copy in Hop; simpl in Hop;
    apply bind_ret_inv in Hop as (u & w2 & Hmv & Hop);
    unfold Sender.moved, Receiver.moved, ret in Hmv; simpl in Hmv; simplify_eq;
    try (apply bind_ret_inv in Hop as (y & w3 & Hop & Hret);
         unfold ret in Hret; simplify_eq);
    by eapply arrow_frame.
Qed.

Lemma do_calls_frame c (cs : list (call T)) w rs w' c' :
  do_calls (MkSender (Some c)) (MkReceiver (Some c)) cs w = Ret (rs, w') →
  c' ≠ c → w' !! c' = w !! c'.
Proof.
  revert w rs. induction cs as [|k cs IH]; intros w rs Hrun Hne; simpl in Hrun.
  - unfold ret in Hrun. by simplify_eq.
  - apply bind_ret_inv in Hrun as (a & w1 & Hk & Hrun).
    apply bind_ret_inv in Hrun as (rest & w2 & Hrest & Hret).
    unfold ret in Hret. simplify_eq.
    rewrite (IH _ _ Hrest Hne). by eapply do_call_frame.
Qed.

End frame_facts.

Section iterator_more.
Context {T : Type}.
Implicit Types (w : world T) (c : cref) (vs : list T) (it : iterator T).

Lemma next_loop_holds fuel (r : Receiver) it w it' w' :
  receiver it = Some r →
  iterator.next_loop fuel r it w = Ret (it', w') →
  holds_value_iff_active it'.
Proof.
  intros Hr. revert w. induction fuel as [|fuel IH]; intros w Hrun; [done|].
  simpl in Hrun. apply bind_ret_inv in Hrun as (cl & w1 & _ & Hrun).
  destruct cl.
  - unfold ret in Hrun. by simplify_eq.
  - apply bind_ret_inv in Hrun as (tmp & w2 & _ & Hrun).
    destruct tmp as [v|]; [|by eapply IH].
    unfold ret in Hrun. simplify_eq.
    unfold holds_value_iff_active. simpl. rewrite Hr. eauto.
Qed.

Lemma next_holds fuel it w it' w' :
  holds_value_iff_active it →
  iterator.next fuel it w = Ret (it', w') →
  holds_value_iff_active it'.
Proof.
  intros Hok. unfold iterator.next.
  destruct (receiver it) as [r|] eqn:Hr.
  - by apply next_loop_holds.
  - unfold ret. intros ?. by simplify_eq.
Qed.


End iterator_more.

Section sleeping_more.
Context {T : Type}.
Implicit Types (ch : Channel T) (tr : list (event T)).



End sleeping_more.

(** ** The properties *)



(** X2: on a well-formed queue the overloads that assign to a reference
    do what the overloads that return a pointer do.  [wait_and_pop(value)]
    sleeps when [wait_and_pop()] sleeps and otherwise assigns the value
    behind the pointer that [wait_and_pop()] returns; [try_pop(value)]
    returns true and assigns that value exactly when [try_pop()] returns a
    pointer that is not null; and either pair leaves the same queue. *)
Theorem X2_reference_overloads_agree {T : Type}
    (q : threadsafe_queue T) (vs : list T) :
  queue_inv q vs →
  match threadsafe_queue.wait_and_pop q with
  | Ret (p, q') =>
      ∃ v, p = Some v ∧ threadsafe_queue.wait_and_pop_value q = Ret (v, q')
  | Blocked => threadsafe_queue.wait_and_pop_value q = Blocked
  | _ => False
  end ∧
  ∃ p q', threadsafe_queue.try_pop q = Ret (p, q') ∧
          threadsafe_queue.try_pop_value q =
            Ret ((bool_decide (is_Some p), p), q').
Proof.
  intros Hinv. destruct vs as [|v vs].
  - destruct (pops_empty _ Hinv) as (-> & -> & -> & ->).
    split; [done|]. exists None, q. split; [done|].
    rewrite bool_decide_eq_false_2; [done|]. by intros [? ?].
  - destruct (pops_exact _ _ _ Hinv) as (h & p' & _ & _ & -> & -> & -> & ->).
    split; [by exists v|]. eexists _, _. split; [done|].
    rewrite bool_decide_eq_true_2; [done|]. eauto.
Qed.

Lemma X2_witness_one_value_left :
  queue_inv queue_8 [8] ∧
  match threadsafe_queue.wait_and_pop queue_8 with
  | Ret (p, q') =>
      ∃ v, p = Some v ∧ threadsafe_queue.wait_and_pop_value queue_8 = Ret (v, q')
  | Blocked => threadsafe_queue.wait_and_pop_value queue_8 = Blocked
  | _ => False
  end ∧
  ∃ p q', threadsafe_queue.try_pop queue_8 = Ret (p, q') ∧
          threadsafe_queue.try_pop_value queue_8 =
            Ret ((bool_decide (is_Some p), p), q').
Proof.
  assert (queue_inv queue_8 [8]) as Hinv by solve_queue_inv.
  split; [exact Hinv|].
  exact (X2_reference_overloads_agree queue_8 [8] Hinv).
Defined.

(** X3: a queue that has been pushed to and popped from holds exactly one
    node for each value that has been pushed and not popped yet, and the
    dummy node: every pop frees the node it takes off, and nothing else is
    ever freed or left behind. *)
Theorem X3_one_node_per_buffered_value {T : Type}
    (q : threadsafe_queue T) (pushed popped : list T) :
  reachable q pushed popped →
  length popped ≤ length pushed ∧
  size (heap q) = S (length pushed - length popped).
Proof.
  intros Hreach.
  destruct (reachable_tight _ _ _ Hreach) as (vs & _ & -> & Hsz & _).
  rewrite Hsz, length_app. split; [lia|]. f_equal. lia.
Qed.

Lemma X3_witness_two_pushes_one_pop :
  reachable queue_8 [7; 8] [7] ∧
  length [7] ≤ length [7; 8] ∧
  size (heap queue_8) = S (length [7; 8] - length [7]).
Proof.
  assert (reachable queue_8 [7; 8] [7]) as Hreach by solve_reachable_queue_8.
  split; [exact Hreach|].
  exact (X3_one_node_per_buffered_value queue_8 [7; 8] [7] Hreach).
Defined.

(** X4: [push] calls [notify_one] once, and no other member function
    notifies: the number of notifications issued on [data_cond] is the
    number of values pushed so far. *)
Theorem X4_one_notification_per_push {T : Type}
    (q : threadsafe_queue T) (pushed popped : list T) :
  reachable q pushed popped → data_cond q = length pushed.
Proof.
  intros Hreach.
  by destruct (reachable_tight _ _ _ Hreach) as (vs & _ & _ & _ & ?).
Qed.

Lemma X4_witness_two_pushes_one_pop :
  reachable queue_8 [7; 8] [7] ∧ data_cond queue_8 = length [7; 8].
Proof.
  assert (reachable queue_8 [7; 8] [7]) as Hreach by solve_reachable_queue_8.
  split; [exact Hreach|].
  exact (X4_one_notification_per_push queue_8 [7; 8] [7] Hreach).
Defined.



(** X6: [make_channel] builds its core at an address of its own, and the
    two handles it returns reach that core only: whatever one thread then
    does through them, every channel that existed before is left exactly
    as it was. *)
Theorem X6_new_channel_leaves_the_others_alone {T : Type}
    (w w' : world T) (cs : list (call T)) (rs : list (reply T))
    (c : cref) (ch : Channel T) :
  (sr ← make_channel; do_calls sr.1 sr.2 cs) w = Ret (rs, w') →
  w !! c = Some ch →
  w' !! c = Some ch.
Proof.
  intros Hrun Hc. apply bind_ret_inv in Hrun as (sr & w0 & Hmk & Hrun).
  unfold make_channel in Hmk. simplify_eq. cbn [fst snd] in Hrun.
  assert (c ≠ fresh (dom w)) as Hne.
  { intros ->. pose proof (is_fresh (dom w)) as Hf.
    apply Hf, elem_of_dom. eauto. }
  rewrite (do_calls_frame _ _ _ _ _ _ Hrun Hne).
  by rewrite lookup_insert_ne.
Qed.


Lemma X6_witness_next_to_a_closed_channel :
  second_channel (world_with (closed_channel_with [7])) =
    Ret ([reply_done; reply_value (Some 1)],
         world_after second_channel (world_with (closed_channel_with [7]))) ∧
  world_with (closed_channel_with [7]) !! 1%positive =
    Some (closed_channel_with [7]) ∧
  world_after second_channel (world_with (closed_channel_with [7])) !! 1%positive =
    Some (closed_channel_with [7]).
Proof.
  assert (second_channel (world_with (closed_channel_with [7])) =
            Ret ([reply_done; reply_value (Some 1)],
                 world_after second_channel (world_with (closed_channel_with [7]))))
    as Hrun by (vm_compute; reflexivity).
  assert (world_with (closed_channel_with [7]) !! 1%positive =
            Some (closed_channel_with [7])) as Hc by (vm_compute; reflexivity).
  split; [exact Hrun|]. split; [exact Hc|].
  exact (X6_new_channel_leaves_the_others_alone _ _ _ _ _ _ Hrun Hc).
Defined.

(** X7: after the iterator has been made by [begin()] or advanced by
    [operator++], it holds a value exactly when it is not at the end:
    [operator*] on an iterator that differs from [end()] returns a value,
    and at the end it throws [std::bad_optional_access], also when the
    iterator held a value before it was advanced. *)
Theorem X7_iterator_holds_a_value_until_the_end {T : Type}
    (fuel : nat) (r : Receiver) (it it1 it2 : iterator T)
    (w0 w1 w w2 : world T) :
  Receiver_begin fuel r w0 = Ret (it1, w1) →
  holds_value_iff_active it →
  iterator.op_incr fuel it w = Ret (it2, w2) →
  holds_value_iff_active it1 ∧ holds_value_iff_active it2 ∧
  (if iterator.op_ne it2 Receiver_end
   then ∃ v, iterator.op_deref it2 w2 = Ret (v, w2)
   else iterator.op_deref it2 w2 = Throw bad_optional_access).
Proof.
  intros Hbegin Hok Hincr.
  assert (holds_value_iff_active it2) as Hok2 by (by eapply next_holds).
  split; [|split; [done|]].
  - unfold Receiver_begin, iterator.ctor_from in Hbegin.
    apply bind_ret_inv in Hbegin as (cl & w' & _ & Hbegin). destruct cl.
    + unfold ret in Hbegin. by simplify_eq.
    + by eapply (next_loop_holds fuel r (MkIterator (Some r) None)).
  - unfold iterator.op_ne, iterator.op_eq, iterator.op_deref.
    unfold holds_value_iff_active in Hok2.
    destruct (receiver it2), (current it2) as [v|]; simpl; try done.
    by exists v.
Qed.

Lemma X7_witness_advance_after_close :
  Receiver_begin 1 (MkReceiver (Some 1%positive)) world_7_8 =
    Ret (MkIterator (Some (MkReceiver (Some 1%positive))) (Some 7),
         world_after (Receiver_begin 1 (MkReceiver (Some 1%positive))) world_7_8) ∧
  holds_value_iff_active (MkIterator (Some (MkReceiver (Some 1%positive))) (Some 7)) ∧
  iterator.op_incr 1 (MkIterator (Some (MkReceiver (Some 1%positive))) (Some 7))
      (world_with (closed_channel_with [8])) =
    Ret (Receiver_end, world_with (closed_channel_with [8])) ∧
  holds_value_iff_active
    (MkIterator (Some (MkReceiver (Some 1%positive))) (Some 7)) ∧
  holds_value_iff_active (Receiver_end (T:=nat)) ∧
  (if iterator.op_ne (Receiver_end (T:=nat)) Receiver_end
   then ∃ v, iterator.op_deref Receiver_end (world_with (closed_channel_with [8])) =
               Ret (v, world_with (closed_channel_with [8]))
   else iterator.op_deref (Receiver_end (T:=nat)) (world_with (closed_channel_with [8])) =
          Throw bad_optional_access).
Proof.
  assert (Receiver_begin 1 (MkReceiver (Some 1%positive)) world_7_8 =
            Ret (MkIterator (Some (MkReceiver (Some 1%positive))) (Some 7),
                 world_after (Receiver_begin 1 (MkReceiver (Some 1%positive)))
                   world_7_8)) as Hbegin by (vm_compute; reflexivity).
  assert (holds_value_iff_active
            (MkIterator (Some (MkReceiver (Some 1%positive))) (Some 7))) as Hok
    by (eexists; reflexivity).
  assert (iterator.op_incr 1
            (MkIterator (Some (MkReceiver (Some 1%positive))) (Some 7))
            (world_with (closed_channel_with [8])) =
            Ret (Receiver_end, world_with (closed_channel_with [8]))) as Hincr
    by (vm_compute; reflexivity).
  split; [exact Hbegin|]. split; [exact Hok|]. split; [exact Hincr|].
  exact (X7_iterator_holds_a_value_until_the_end _ _ _ _ _ _ _ _ _
           Hbegin Hok Hincr).
Defined.



(** X9: on a closed well-formed channel the range-based for loop ends at
    once, yields nothing and leaves the channel as it is, whatever is
    buffered; the buffered values are not lost, as [recv] still hands them
    out one by one, in order. *)
Theorem X9_closed_channel_is_drained_by_recv_only {T : Type}
    (w : world T) (c : cref) (vs : list T) (fuel n : nat) :
  chan_inv w c vs true →
  for_each fuel (S n) (MkReceiver (Some c)) w = Ret ([], w) ∧
  ∃ w', recv_n (MkReceiver (Some c)) (length vs) w = Ret (Some <$> vs, w') ∧
        chan_inv w' c [] true.
Proof.
  intros Hinv. split.
  - unfold for_each, bind. by rewrite (begin_closed _ _ _ _ Hinv).
  - rewrite <- (app_nil_r vs) in Hinv.
    by apply recv_n_spec.
Qed.

Lemma X9_witness_closed_with_two_values :
  chan_inv (world_with (closed_channel_with [7; 8])) 1%positive [7; 8] true ∧
  for_each 0 1 (MkReceiver (Some 1%positive))
      (world_with (closed_channel_with [7; 8])) =
    Ret ([], world_with (closed_channel_with [7; 8])) ∧
  ∃ w', recv_n (MkReceiver (Some 1%positive)) (length [7; 8])
          (world_with (closed_channel_with [7; 8])) =
          Ret (Some <$> [7; 8], w') ∧
        chan_inv w' 1%positive [] true.
Proof.
  assert (chan_inv (world_with (closed_channel_with [7; 8])) 1%positive
            [7; 8] true) as Hinv by solve_chan_inv.
  split; [exact Hinv|].
  exact (X9_closed_channel_is_drained_by_recv_only _ _ _ 0 0 Hinv).
Defined.

(** X10: apart from the blocking receive, no operation waits, in whatever
    state the queue, the channel and the handle are: [push], both overloads
    of [try_pop] and [empty] on the queue, and [send], [close], [closed]
    and [try_recv] on the handles, never put the caller to sleep on the
    condition variable and never loop. *)
Theorem X10_only_recv_waits {T : Type} (s : Sender) (r : Receiver) (v : T) :
  never_waits (threadsafe_queue.push v) ∧
  never_waits (threadsafe_queue.try_pop (T:=T)) ∧
  never_waits (threadsafe_queue.try_pop_value (T:=T)) ∧
  never_waits (threadsafe_queue.empty (T:=T)) ∧
  never_waits (Sender.send s v) ∧
  never_waits (Sender.close (T:=T) s) ∧
  never_waits (Sender.closed (T:=T) s) ∧
  never_waits (Receiver.try_recv (T:=T) r) ∧
  never_waits (Receiver.closed (T:=T) r).
Proof.
  assert (∀ this, never_waits (Sender.moved (T:=T) this)) as Hsm.
  { intros [[c|]]; done. }
  assert (∀ this, never_waits (Receiver.moved (T:=T) this)) as Hrm.
  { intros [[c|]]; done. }
  split; [apply never_waits_push|]. split; [apply never_waits_try_pop|].
  split; [apply never_waits_try_pop_value|]. split; [apply never_waits_empty|].
  split.
  { apply never_waits_bind; [apply Hsm|]. intros _.
    apply never_waits_bind; [|done].
    apply never_waits_arrow, never_waits_zoom, never_waits_push. }
  split.
  { apply never_waits_bind; [apply Hsm|]. intros _. by apply never_waits_arrow. }
  split.
  { apply never_waits_bind; [apply Hsm|]. intros _. by apply never_waits_arrow. }
  split.
  { apply never_waits_bind; [apply Hrm|]. intros _. apply never_waits_arrow.
    apply never_waits_bind; [apply never_waits_zoom, never_waits_try_pop|].
    intros p. apply never_waits_bind; [by destruct p|done]. }
  apply never_waits_bind; [apply Hrm|]. intros _. by apply never_waits_arrow.
Qed.

(** X11: one thread works on a fresh channel through the producer handle,
    a copy of it and the consumer handle, in any order.  Every call is
    answered as a list of buffered values and a flag would answer it:
    [send], also through the copy, appends; [close], also through the copy,
    sets the flag and nothing resets it; [closed] reads the flag on either handle; [recv]
    takes the front value and sleeps on the empty list; [try_recv] takes
    the front value and runs into undefined behaviour on the empty list. *)
Theorem X11_calls_answered_as_by_a_list {T : Type}
    (w : world T) (cs : list (call T)) :
  ∃ c, w !! c = None ∧
       answers_alike c
         ((sr ← make_channel; do_calls sr.1 sr.2 cs) w)
         (fifo_calls cs ([], false)).
Proof.
  destruct (make_channel_spec w) as (c & w0 & Hmk & Hinv0).
  exists c. split.
  { unfold make_channel in Hmk. simplify_eq. apply not_elem_of_dom, is_fresh. }
  unfold bind at 1. rewrite Hmk. cbn [fst snd].
  by apply do_calls_answer.
Qed.


